(** * panctl: the interactive control shell of pantalaimon

    A shallow embedding of [pantalaimon/panctl.py] and the properties of its
    command grammar, completion engine, presentation helpers and prompt loop.

    Conventions of the embedding:
    - a Python [str] is a Rocq [string]; one character stands for one code
      point below 256.  [get_color] is additionally stated over arbitrary
      lists of code points, so that nothing depends on that bound;
    - Python integers are [Z] (unbounded, as in the source);
    - exceptions are values of [exn]; printing and remote calls are recorded
      as a trace of [event]s;
    - [argparse] is the standard library module as shipped with the
      interpreters the program targets (CPython 3.6 to 3.10, the ones its
      prompt_toolkit 2 calls run on): [add_parser] stores the new parser in a
      dict under the given name. *)

From Stdlib Require Import ZArith Ascii String List Lia.
From stdpp Require Import base gmap sets list strings.

Local Open Scope Z_scope.

(** ** Python primitives used by the program *)

Module Py.

(** [ord(x)] *)
Definition ord (c : ascii) : Z := Z.of_N (N_of_ascii c).

(** [len(s)] *)
Definition len (s : string) : Z := Z.of_nat (String.length s).

(** [l[i]] on a list, negative indices counting from the end; [None]
    stands for IndexError. *)
Definition getitem {A} (l : list A) (i : Z) : option A :=
  let n := Z.of_nat (length l) in
  if (0 <=? i) && (i <? n) then l !! Z.to_nat i
  else if (- n <=? i) && (i <? 0) then l !! Z.to_nat (n + i)
  else None.

(** [s.startswith(p)] *)
Fixpoint startswith (s p : string) : bool :=
  match p, s with
  | EmptyString, _ => true
  | String c p', String d s' => if Ascii.eqb c d then startswith s' p' else false
  | String _ _, EmptyString => false
  end.

(** [needle in hay] on strings: [needle] occurs as a contiguous run. *)
Fixpoint contains (hay needle : string) : bool :=
  startswith hay needle ||
  match hay with
  | EmptyString => false
  | String _ hay' => contains hay' needle
  end.

(** [c in s] for a single character. *)
Fixpoint has_char (c : ascii) (s : string) : bool :=
  match s with
  | EmptyString => false
  | String d s' => Ascii.eqb c d || has_char c s'
  end.

(** [sep.join(l)] *)
Fixpoint join (sep : string) (l : list string) : string :=
  match l with
  | [] => ""
  | x :: l' =>
      match l' with
      | [] => x
      | _ :: _ => x +:+ sep +:+ join sep l'
      end
  end.

(** [s.split(" ")]: cut at every single space; never returns the empty
    list. *)
Fixpoint split_char (sep : ascii) (s : string) : list string :=
  match s with
  | EmptyString => [""]
  | String c s' =>
      if Ascii.eqb c sep then "" :: split_char sep s'
      else match split_char sep s' with
           | w :: ws => String c w :: ws
           | [] => [String c ""]
           end
  end.

(** [c.isspace()] for code points below 256. *)
Definition isspace (c : ascii) : bool :=
  let n := ord c in
  ((9 <=? n) && (n <=? 13)) || ((28 <=? n) && (n <=? 32))
  || (n =? 133) || (n =? 160).

(** [s.split()]: cut at runs of whitespace, dropping empty pieces.  [cur]
    is the word being read, in reverse. *)
Fixpoint split_ws_from (cur : list ascii) (s : string) : list string :=
  let flush (rest : list string) :=
    match cur with
    | [] => rest
    | _ :: _ => string_of_list_ascii (rev cur) :: rest
    end in
  match s with
  | EmptyString => flush []
  | String c s' =>
      if isspace c then flush (split_ws_from [] s')
      else split_ws_from (c :: cur) s'
  end.

Definition split_ws (s : string) : list string := split_ws_from [] s.

(** [l.remove(x)]: drop the first element equal to [x] (the ValueError of
    a missing element is swallowed by every caller here). *)
Fixpoint remove_first (x : string) (l : list string) : list string :=
  match l with
  | [] => []
  | y :: l' => if String.eqb y x then l' else y :: remove_first x l'
  end.

End Py.

(** ** Presentation helpers *)

(** *** [itertools.zip_longest] over possibly shared iterators

    The iterators live in a store and the arguments of [zip_longest] name
    them by position, so that one iterator passed several times is advanced
    by each of its occurrences. *)

Inductive slot := Live (it : nat) | Filler.

Section zip_longest.
Context {A : Type}.

(** One round of the [for i, it in enumerate(iterators)] loop.  [None]
    is the [return] taken when the last active iterator is exhausted;
    otherwise the round yields [values]. *)
Fixpoint zl_round (fillvalue : A) (todo : list slot)
    (store : list (list A)) (num_active : Z)
    (seen : list slot) (values : list A)
  : option (list A * list slot * list (list A) * Z) :=
  match todo with
  | [] => Some (values, seen, store, num_active)
  | Filler :: todo' =>
      zl_round fillvalue todo' store num_active
               (seen ++ [Filler]) (values ++ [fillvalue])
  | Live i :: todo' =>
      match store !! i with
      | Some (x :: rest) =>
          zl_round fillvalue todo' (<[i := rest]> store) num_active
                   (seen ++ [Live i]) (values ++ [x])
      | _ =>
          let num_active := num_active - 1 in
          if num_active =? 0 then None
          else zl_round fillvalue todo' store num_active
                        (seen ++ [Filler]) (values ++ [fillvalue])
      end
  end.

(** The [while True] loop; [fuel] bounds the number of rounds. *)
Fixpoint zl_rounds (fuel : nat) (fillvalue : A) (iterators : list slot)
    (store : list (list A)) (num_active : Z) : list (list A) :=
  match fuel with
  | O => []
  | S fuel' =>
      match zl_round fillvalue iterators store num_active [] [] with
      | None => []
      | Some (values, iterators', store', num_active') =>
          values :: zl_rounds fuel' fillvalue iterators' store' num_active'
      end
  end.

Definition zip_longest (fuel : nat) (store : list (list A))
    (args : list slot) (fillvalue : A) : list (list A) :=
  let num_active := Z.of_nat (length args) in
  if num_active =? 0 then []
  else zl_rounds fuel fillvalue args store num_active.

(** [grouper(iterable, n, fillvalue)]: [n] references to one iterator.
    A round either reads an element or retires an iterator, so
    [length iterable + n + 1] rounds are enough. *)
Definition grouper (iterable : list A) (n : nat) (fillvalue : A)
  : list (list A) :=
  let args := replicate n (Live 0) in
  zip_longest (S (length iterable + n)) [iterable] args fillvalue.

End zip_longest.

Definition partition_key (key : string) : string :=
  let groups := grouper (list_ascii_of_string key) 4 " "%char in
  Py.join " " (map string_of_list_ascii groups).

(** The characters of a displayed key that are not separators. *)
Definition not_space (c : ascii) : bool := negb (Ascii.eqb c " ").

(** The grouping as the specification words it: chunks of four characters,
    the last one padded with [fill]; [grouper] is compared with it below. *)
Fixpoint groups_of_4 {A} (fill : A) (l : list A) : list (list A) :=
  match l with
  | [] => []
  | [a] => [[a; fill; fill; fill]]
  | [a; b] => [[a; b; fill; fill]]
  | [a; b; c] => [[a; b; c; fill]]
  | a :: b :: c :: d :: l' => [a; b; c; d] :: groups_of_4 fill l'
  end.

(** *** [get_color] *)

Definition djb2_codes (codes : list Z) : Z :=
  let hash := fold_left (fun hash x => (Z.shiftl hash 5 + hash) + x) codes 5381 in
  Z.land hash 0xFFFFFFFF.

Definition colors : list string :=
  [ "ansiblue"; "ansigreen"; "ansired";
    "ansiyellow"; "ansicyan"; "ansimagenta" ].

Definition djb2 (s : string) : Z :=
  djb2_codes (map Py.ord (list_ascii_of_string s)).

(** [None] would be the IndexError of [colors[...]]. *)
Definition get_color (s : string) : option string :=
  Py.getitem colors (djb2 s mod 5).

(** [get_color] on a string given by its code points, whatever their
    range. *)
Definition get_color_codes (codes : list Z) : option string :=
  Py.getitem colors (djb2_codes codes mod 5).

(** ** Exceptions, output and the effect monad *)

(** Messages of [argparse], kept structured: the text printed for them
    embeds [repr] of the offending strings. *)
Inductive message :=
  | UnrecognizedArguments (argv : list string)
  | ArgumentsRequired (names : list string)
  | InvalidChoice (value : string)
  | IgnoredExplicitArgument (explicit_arg : string)
  | AmbiguousOption (arg_string : string) (matches : list string).

Inductive exn :=
  | ParseError
  | ArgumentError (m : message)
  | SystemExit (status : Z)
  | IndexError
  | AttributeError (name : string)
  | KeyError
  | DBusException
  | EOFError
  | KeyboardInterrupt.

Inductive stream := Stdout | Stderr.

(** What is written: a [print]ed line, the line printed by
    [PanctlArgParse.error], the help text of a parser (of the subcommand
    [sub], or of the main parser), or [print_formatted_text(HTML(..))]. *)
Inductive output :=
  | Text (line : string)
  | ErrorLine (m : message)
  | HelpText (sub : option string)
  | Formatted (html : string).

(** The value of a namespace attribute: [None], a [str] or a list of
    [str]. *)
Inductive value := VNone | VStr (s : string) | VList (l : list string).

(** Remote calls, with the arguments as passed. *)

Inductive rpc :=
  | ListUsers
  | ImportKeys (pan_user path passphrase : value)
  | ExportKeys (pan_user path passphrase : value)
  | ConfirmSas (pan_user user_id device_id : value)
  | DevicesList (pan_user : string)
  | ListUserDevices (pan_user user_id : value).

Inductive event :=
  | Write (f : stream) (o : output)
  | Call (c : rpc)
  | ShowPrompt.

Inductive outcome (A : Type) :=
  | Returns (a : A)
  | Raises (e : exn)
  | OutOfFuel.
Arguments Returns {A} a.
Arguments Raises {A} e.
Arguments OutOfFuel {A}.

(** A computation: the trace it leaves and how it ends. *)
Definition W (A : Type) : Type := list event * outcome A.

Definition ret {A} (a : A) : W A := ([], Returns a).
Definition raise {A} (e : exn) : W A := ([], Raises e).
Definition out_of_fuel {A} : W A := ([], OutOfFuel).
Definition emit (ev : event) : W unit := ([ev], Returns tt).

Definition bind {A B} (m : W A) (k : A -> W B) : W B :=
  match m with
  | (t, Returns a) => let '(t', r) := k a in (t ++ t', r)
  | (t, Raises e) => (t, Raises e)
  | (t, OutOfFuel) => (t, OutOfFuel)
  end.

(** [try: m except <handled>: h] *)
Definition try_except {A} (m : W A) (h : exn -> option (W A)) : W A :=
  match m with
  | (t, Raises e) =>
      match h e with
      | Some k => let '(t', r) := k in (t ++ t', r)
      | None => (t, Raises e)
      end
  | _ => m
  end.

Declare Scope w_scope.
Delimit Scope w_scope with W.
Notation "x <- m ;; k" := (bind m (fun x => k))
  (at level 100, m at next level, right associativity) : w_scope.
Notation "m ;;; k" := (bind m (fun _ => k))
  (at level 100, right associativity) : w_scope.
Local Open Scope w_scope.

(** [print(line)] *)
Definition print (line : string) : W unit := emit (Write Stdout (Text line)).

(** ** The argument parser

    [PanctlArgParse] is [argparse.ArgumentParser] with [print_usage]
    silenced and [error] replaced. *)

(** [PanctlArgParse.error] *)
Definition error {A} (m : message) : W A :=
  emit (Write Stdout (ErrorLine m)) ;;; raise ParseError.

(** The handler of [except ArgumentError as err: self.error(str(err))]. *)
Definition on_argument_error {X} (e : exn) : option (W X) :=
  match e with
  | ArgumentError m => Some (error m)
  | _ => None
  end.

(** A namespace is the ordered attribute dict of the object. *)
Definition Namespace : Type := list (string * value).

Fixpoint setattr (ns : Namespace) (name : string) (v : value) : Namespace :=
  match ns with
  | [] => [(name, v)]
  | (n, w) :: ns' =>
      if String.eqb n name then (n, v) :: ns' else (n, w) :: setattr ns' name v
  end.

Fixpoint getattr (ns : Namespace) (name : string) : option value :=
  match ns with
  | [] => None
  | (n, w) :: ns' => if String.eqb n name then Some w else getattr ns' name
  end.

Fixpoint delattr (ns : Namespace) (name : string) : Namespace :=
  match ns with
  | [] => []
  | (n, w) :: ns' =>
      if String.eqb n name then ns' else (n, w) :: delattr ns' name
  end.

Module Argparse.

(** Every parser of the program has one optional, the help flag that
    [add_help=True] registers as [-h] and [--help]. *)
Inductive action := Help.

Definition option_string_actions : list (string * action) :=
  [("-h", Help); ("--help", Help)].

Fixpoint assoc {B} (l : list (string * B)) (k : string) : option B :=
  match l with
  | [] => None
  | (k', b) :: l' => if String.eqb k' k then Some b else assoc l' k
  end.

Definition is_prefix_char (c : ascii) : bool := Ascii.eqb c "-".

(** [(action, option_string, explicit_arg)] *)
Definition option_tuple : Type := option action * string * option string.

(** [s.split('=', 1)] when ['=' in s]. *)
Fixpoint split_eq (s : string) : option (string * string) :=
  match s with
  | EmptyString => None
  | String c s' =>
      if Ascii.eqb c "=" then Some ("", s')
      else match split_eq s' with
           | Some (a, b) => Some (String c a, b)
           | None => None
           end
  end.

(** [_get_option_tuples]; the caller has checked that the string has two
    characters and starts with a prefix character. *)
Definition get_option_tuples (option_string : string) : list option_tuple :=
  match option_string with
  | String c0 (String c1 tail) =>
      if is_prefix_char c0 && is_prefix_char c1 then
        let '(option_prefix, explicit_arg) :=
          match split_eq option_string with
          | Some (p, e) => (p, Some e)
          | None => (option_string, None)
          end in
        flat_map (fun '(os, a) =>
                    if Py.startswith os option_prefix
                    then [(Some a, os, explicit_arg)] else [])
                 option_string_actions
      else if is_prefix_char c0 && negb (is_prefix_char c1) then
        let option_prefix := option_string in
        let short_option_prefix := String c0 (String c1 "") in
        let short_explicit_arg := tail in
        flat_map (fun '(os, a) =>
                    if String.eqb os short_option_prefix
                    then [(Some a, os, Some short_explicit_arg)]
                    else if Py.startswith os option_prefix
                    then [(Some a, os, None)] else [])
                 option_string_actions
      else []
  | _ => []
  end.

Definition is_digit (c : ascii) : bool :=
  (48 <=? Py.ord c) && (Py.ord c <=? 57).

(** Length of the leading run of digits, and what follows it. *)
Fixpoint span_digits (s : string) : nat * string :=
  match s with
  | String c s' =>
      if is_digit c then let '(n, r) := span_digits s' in (S n, r)
      else (0%nat, s)
  | EmptyString => (0%nat, s)
  end.

(** [$]: the end of the string, or a newline that ends it. *)
Definition at_end (s : string) : bool :=
  String.eqb s "" || String.eqb s (String "010" "").

(** [_negative_number_matcher], the pattern [^-\d+$|^-\d*\.\d+$]. *)
Definition negative_number (s : string) : bool :=
  match s with
  | String c t =>
      Ascii.eqb c "-" &&
      (let '(n, r) := span_digits t in
       (negb (Nat.eqb n 0) && at_end r)
       || match r with
          | String d r' =>
              Ascii.eqb d "." &&
              (let '(m, r'') := span_digits r' in
               negb (Nat.eqb m 0) && at_end r'')
          | EmptyString => false
          end)
  | EmptyString => false
  end.

Inductive optional_parse :=
  | Positional
  | Optional (t : option_tuple)
  | Ambiguous (matches : list option_tuple).

(** [_parse_optional]: [Positional] is its [None]; [Ambiguous] is the
    case in which it calls [self.error]. *)
Definition parse_optional (arg_string : string) : optional_parse :=
  match arg_string with
  | EmptyString => Positional
  | String c0 _ =>
      if negb (is_prefix_char c0) then Positional
      else
        match assoc option_string_actions arg_string with
        | Some a => Optional (Some a, arg_string, None)
        | None =>
            if Nat.eqb (String.length arg_string) 1 then Positional
            else
              let before_eq :=
                match split_eq arg_string with
                | Some (option_string, explicit_arg) =>
                    match assoc option_string_actions option_string with
                    | Some a => Some (Some a, option_string, Some explicit_arg)
                    | None => None
                    end
                | None => None
                end in
              match before_eq with
              | Some t => Optional t
              | None =>
                  match get_option_tuples arg_string with
                  | (_ :: _ :: _) as matches => Ambiguous matches
                  | [t] => Optional t
                  | [] =>
                      if negative_number arg_string then Positional
                      else if Py.has_char " " arg_string then Positional
                      else Optional (None, arg_string, None)
                  end
              end
        end
  end.

(** One letter of [arg_strings_pattern]: ['A'], ['O'] (with the entry of
    [option_string_indices]) or ['-']. *)
Inductive arg_class := PA | PO (t : option_tuple) | PDash.

Definition is_O (c : arg_class) : bool :=
  match c with PO _ => true | _ => false end.

Fixpoint classify (arg_strings : list string) : W (list arg_class) :=
  match arg_strings with
  | [] => ret []
  | arg_string :: rest =>
      if String.eqb arg_string "--" then ret (PDash :: map (fun _ => PA) rest)
      else
        match parse_optional arg_string with
        | Positional => cs <- classify rest ;; ret (PA :: cs)
        | Optional t => cs <- classify rest ;; ret (PO t :: cs)
        | Ambiguous matches =>
            error (AmbiguousOption arg_string (map (fun t => snd (fst t)) matches))
        end
  end.

(** The positional actions: the subparsers action ([nargs=PARSER]) and a
    plain [add_argument(dest, type=str)]. *)
Inductive positional := Subparsers (dest : string) | Argument (dest : string).

Definition dest_of (p : positional) : string :=
  match p with Subparsers d => d | Argument d => d end.

Fixpoint count_dashes (pat : list arg_class) : nat :=
  match pat with
  | PDash :: pat' => S (count_dashes pat')
  | _ => 0%nat
  end.

(** Match the concatenated [_get_nargs_pattern]s of [actions] at the head
    of [pat] and give the length of each group.  An argument takes any
    dashes, one A and the dashes after it; the subparsers action takes
    any dashes, one A and all that follows (this program only ever has
    it as the last positional). *)
Fixpoint match_groups (actions : list positional) (pat : list arg_class)
  : option (list nat) :=
  match actions with
  | [] => Some []
  | Argument _ :: actions' =>
      let d1 := count_dashes pat in
      match drop d1 pat with
      | PA :: pat' =>
          let d2 := count_dashes pat' in
          match match_groups actions' (drop d2 pat') with
          | Some counts => Some ((d1 + 1 + d2)%nat :: counts)
          | None => None
          end
      | _ => None
      end
  | Subparsers _ :: actions' =>
      let d1 := count_dashes pat in
      match drop d1 pat with
      | PA :: _ =>
          match match_groups actions' [] with
          | Some counts => Some (length pat :: counts)
          | None => None
          end
      | _ => None
      end
  end.

(** [_match_arguments_partial]: the longest prefix of [actions] that
    matches; [n] counts down the candidate prefix lengths. *)
Fixpoint match_partial_from (n : nat) (actions : list positional)
    (pat : list arg_class) : list nat :=
  match n with
  | 0%nat => []
  | S n' =>
      match match_groups (take n actions) pat with
      | Some counts => counts
      | None => match_partial_from n' actions pat
      end
  end.

Definition match_arguments_partial (actions : list positional)
    (pat : list arg_class) : list nat :=
  match_partial_from (length actions) actions pat.

(** [_get_values] for an argument with [nargs=None] and [type=str]. *)
Definition get_values (arg_strings : list string) : value :=
  let arg_strings := Py.remove_first "--" arg_strings in
  match arg_strings with
  | [arg_string] => VStr arg_string
  | _ => VList arg_strings
  end.

Record state := State {
  positionals : list positional;
  namespace : Namespace;
  extras : list string
}.

Section parser.
(** The parser at work: [prog] names the subcommand it belongs to (none
    for the main parser), [parser_positionals] are its positional
    actions, and [take_positional] is [take_action] on them. *)
Variable prog : option string.
Variable parser_positionals : list positional.
Variable take_positional :
  positional -> list string -> Namespace -> W Namespace.

(** [take_action] on the help flag: [print_help(); exit()]. *)
Definition take_help : W unit :=
  emit (Write Stdout (HelpText prog)) ;;; raise (SystemExit 0).

Section known_args.
Variable arg_strings : list string.
Variable pattern : list arg_class.

(** The [for action, arg_count in zip(positionals, arg_counts)] loop. *)
Fixpoint take_positionals (actions : list positional)
    (arg_counts : list nat) (start_index : nat) (ns : Namespace)
  : W (Namespace * nat) :=
  match actions, arg_counts with
  | action :: actions', arg_count :: arg_counts' =>
      let args := take arg_count (drop start_index arg_strings) in
      ns' <- take_positional action args ns ;;
      take_positionals actions' arg_counts' (start_index + arg_count)%nat ns'
  | _, _ => ret (ns, start_index)
  end.

Definition consume_positionals (start_index : nat) (st : state)
  : W (state * nat) :=
  let selected_pattern := drop start_index pattern in
  let arg_counts :=
    match_arguments_partial (positionals st) selected_pattern in
  r <- take_positionals (positionals st) arg_counts start_index (namespace st) ;;
  let '(ns, start_index) := r in
  ret (State (drop (length arg_counts) (positionals st)) ns (extras st),
       start_index).

(** The [while True] loop of [consume_optional] once an explicit
    argument is attached to a flag: the help action takes no
    argument, so for a single-dash flag the tail is read as further
    single-dash flags. *)
Fixpoint explicit_tuples (a : action) (option_string : string)
    (explicit_arg : string) (action_tuples : list (action * string))
  : W (list (action * string)) :=
  let second := match option_string with
                | String _ (String c _) => c
                | _ => "-"%char
                end in
  let char := match option_string with
              | String c _ => c
              | EmptyString => "-"%char
              end in
  if negb (is_prefix_char second) then
    let action_tuples := action_tuples ++ [(a, option_string)] in
    match explicit_arg with
    | EmptyString => raise IndexError (* [explicit_arg[0]], as in [-h=] *)
    | String c new_explicit_arg =>
        let option_string' := String char (String c "") in
        match assoc option_string_actions option_string' with
        | Some a' =>
            match new_explicit_arg with
            | EmptyString => ret (action_tuples ++ [(a', option_string')])
            | String _ _ =>
                explicit_tuples a' option_string' new_explicit_arg
                                action_tuples
            end
        | None =>
            raise (ArgumentError (IgnoredExplicitArgument explicit_arg))
        end
    end
  else raise (ArgumentError (IgnoredExplicitArgument explicit_arg)).

Fixpoint take_optionals (action_tuples : list (action * string)) : W unit :=
  match action_tuples with
  | [] => ret tt
  | (Help, _) :: action_tuples' => take_help ;;; take_optionals action_tuples'
  end.

Definition consume_optional (start_index : nat) (st : state)
  : W (state * nat) :=
  match pattern !! start_index with
  | Some (PO (None, _, _)) =>
      ret (State (positionals st) (namespace st)
                 (extras st ++ take 1 (drop start_index arg_strings)),
           S start_index)
  | Some (PO (Some a, option_string, explicit_arg)) =>
      action_tuples <-
        match explicit_arg with
        | Some e => explicit_tuples a option_string e []
        | None => ret [(a, option_string)]
        end ;;
      take_optionals action_tuples ;;;
      ret (st, S start_index)
  | _ => raise KeyError
  end.

(** [min(index for index in option_string_indices if index >= start)],
    relative to [start]. *)
Fixpoint next_option (pat : list arg_class) : option nat :=
  match pat with
  | [] => None
  | c :: pat' =>
      if is_O c then Some 0%nat
      else match next_option pat' with
           | Some k => Some (S k)
           | None => None
           end
  end.

(** The [while start_index <= max_option_string_index] loop. *)
Fixpoint consume_loop (fuel : nat) (start_index : nat) (st : state)
  : W (state * nat) :=
  match next_option (drop start_index pattern) with
  | None => ret (st, start_index)
  | Some k =>
      match fuel with
      | 0%nat => out_of_fuel
      | S fuel' =>
          let next_option_string_index := (start_index + k)%nat in
          let at_option (st : state) (start_index : nat) :=
            let '(st, start_index) :=
              if Nat.eqb start_index next_option_string_index
              then (st, start_index)
              else
                let strings :=
                  take (next_option_string_index - start_index)
                       (drop start_index arg_strings) in
                (State (positionals st) (namespace st)
                       (extras st ++ strings),
                 next_option_string_index) in
            r <- consume_optional start_index st ;;
            let '(st, start_index) := r in
            consume_loop fuel' start_index st in
          if Nat.eqb start_index next_option_string_index
          then at_option st start_index
          else
            r <- consume_positionals start_index st ;;
            let '(st', positionals_end_index) := r in
            if (start_index <? positionals_end_index)%nat
            then consume_loop fuel' positionals_end_index st'
            else at_option st' positionals_end_index
      end
  end.

Definition required_actions (unseen : list positional) : list string :=
  flat_map (fun p => match p with
                     | Argument d => [d]
                     | Subparsers _ => []
                     end) unseen.

Definition parse_classified (ns : Namespace) : W (Namespace * list string) :=
  r <- consume_loop (S (length arg_strings)) 0%nat
                    (State parser_positionals ns []) ;;
  let '(st, start_index) := r in
  r <- consume_positionals start_index st ;;
  let '(st, stop_index) := r in
  let extras := extras st ++ drop stop_index arg_strings in
  match required_actions (positionals st) with
  | [] => ret (namespace st, extras)
  | (_ :: _) as names => error (ArgumentsRequired names)
  end.

End known_args.

Definition unrecognized_args_attr : string := "_unrecognized_args".

(** [parse_known_args(args, None)] *)
Definition parse_known_args (args : list string) : W (Namespace * list string) :=
  let namespace :=
    fold_left (fun ns p => match getattr ns (dest_of p) with
                           | Some _ => ns
                           | None => setattr ns (dest_of p) VNone
                           end) parser_positionals [] in
  r <- try_except
         (pattern <- classify args ;;
          parse_classified args pattern namespace)
         on_argument_error ;;
  let '(namespace, args) := r in
  match getattr namespace unrecognized_args_attr with
  | Some (VList more) =>
      ret (delattr namespace unrecognized_args_attr, args ++ more)
  | _ => ret (namespace, args)
  end.

End parser.

End Argparse.

(** *** [PanctlParser] *)

(** [subparsers.add_parser(name)] followed by its [add_argument] calls: the
    new parser is stored under [name] in the subparsers action's dict. *)
Definition add_parser (name_parser_map : gmap string (list string))
    (name : string) (arguments : list string) : gmap string (list string) :=
  <[name := arguments]> name_parser_map.

(** [PanctlParser.__init__], registration by registration. *)
Definition name_parser_map : gmap string (list string) :=
  let m := ∅ in
  let m := add_parser m "list-users" [] in
  let m := add_parser m "list-devices" ["pan_user"; "user_id"] in
  let m := add_parser m "start-verification" ["pan_user"; "user_id"; "device_id"] in
  let m := add_parser m "accept-verification" ["pan_user"; "user_id"; "device_id"] in
  let m := add_parser m "confirm-verification" ["pan_user"; "user_id"; "device_id"] in
  let m := add_parser m "verify-device" ["pan_user"; "user_id"; "device_id"] in
  let m := add_parser m "verify-device" ["pan_user"; "user_id"; "device_id"] in
  let m := add_parser m "import-keys" ["pan_user"; "path"; "passphrase"] in
  let m := add_parser m "export-keys" ["pan_user"; "path"; "passphrase"] in
  m.

(** The store action of [add_argument(dest, type=str)]. *)
Definition store (dest : string) (args : list string) (ns : Namespace)
  : W Namespace :=
  ret (setattr ns dest (Argparse.get_values args)).

(** [take_action] in a subcommand's parser, which has arguments only. *)
Definition take_in_subparser (p : Argparse.positional) (args : list string)
    (ns : Namespace) : W Namespace :=
  match p with
  | Argparse.Argument dest => store dest args ns
  | Argparse.Subparsers _ => ret ns
  end.

Definition subparser_parse_known_args (name : string) (arguments : list string)
    (args : list string) : W (Namespace * list string) :=
  Argparse.parse_known_args (Some name) (map Argparse.Argument arguments)
                            take_in_subparser args.

(** [take_action] on the subparsers action: [_get_values] checks the first
    value against the choices, then [_SubParsersAction.__call__] runs the
    chosen parser on the rest. *)
Definition take_subparsers (dest : string) (values : list string)
    (ns : Namespace) : W Namespace :=
  match values with
  | [] => raise IndexError
  | parser_name :: arg_strings =>
      match name_parser_map !! parser_name with
      | None => raise (ArgumentError (InvalidChoice parser_name))
      | Some arguments =>
          let ns := setattr ns dest (VStr parser_name) in
          r <- subparser_parse_known_args parser_name arguments arg_strings ;;
          let '(subnamespace, arg_strings) := r in
          let ns := fold_left (fun ns kv => setattr ns (fst kv) (snd kv))
                              subnamespace ns in
          match arg_strings with
          | [] => ret ns
          | _ :: _ =>
              let unrecognized :=
                match getattr ns Argparse.unrecognized_args_attr with
                | Some (VList l) => l
                | _ => []
                end in
              ret (setattr ns Argparse.unrecognized_args_attr
                           (VList (unrecognized ++ arg_strings)))
          end
      end
  end.

Definition take_in_parser (p : Argparse.positional) (args : list string)
    (ns : Namespace) : W Namespace :=
  match p with
  | Argparse.Argument dest => store dest args ns
  | Argparse.Subparsers dest => take_subparsers dest args ns
  end.

(** [PanctlParser.parse_args], that is [ArgumentParser.parse_args] of the
    main parser. *)
Definition parse_args (argv : list string) : W Namespace :=
  r <- Argparse.parse_known_args None [Argparse.Subparsers "subcommand"]
                                 take_in_parser argv ;;
  let '(args, argv) := r in
  match argv with
  | [] => ret args
  | _ :: _ => error (UnrecognizedArguments argv)
  end.

(** ** The daemon and the client-side effect monad *)

Record Device := {
  device_id : string;
  fingerprint_key : string;
  user_id : string
}.

(** The D-Bus proxies [ctl] and [devices]: every call may raise and may
    change the daemon's state [D]. *)
Record Daemon (D : Type) := {
  ctl_list_users : D -> (exn + list (string * string)) * D;
  ctl_import_keys : value -> value -> value -> D -> (exn + unit) * D;
  ctl_export_keys : value -> value -> value -> D -> (exn + unit) * D;
  devices_list : string -> D -> (exn + list Device) * D;
  devices_list_user_devices : value -> value -> D -> (exn + list Device) * D;
  devices_confirm_sas : value -> value -> value -> D -> (exn + unit) * D
}.
Arguments ctl_list_users {D} _ _.
Arguments ctl_import_keys {D} _ _ _ _ _.
Arguments ctl_export_keys {D} _ _ _ _ _.
Arguments devices_list {D} _ _ _.
Arguments devices_list_user_devices {D} _ _ _ _.
Arguments devices_confirm_sas {D} _ _ _ _ _.

(** Client code: a computation of [W] that also threads the daemon. *)
Definition M (D A : Type) : Type := D -> W A * D.

Definition mret {D A} (a : A) : M D A := fun d => (ret a, d).

Definition mraise {D A} (e : exn) : M D A := fun d => (raise e, d).

Definition lift {D A} (w : W A) : M D A := fun d => (w, d).

Definition mbind {D A B} (m : M D A) (k : A -> M D B) : M D B :=
  fun d =>
    match m d with
    | ((t, Returns a), d') =>
        let '((t', r), d'') := k a d' in ((t ++ t', r), d'')
    | ((t, Raises e), d') => ((t, Raises e), d')
    | ((t, OutOfFuel), d') => ((t, OutOfFuel), d')
    end.

(** A remote call: it is recorded in the trace, then answered by the
    daemon. *)
Definition call {D A} (c : rpc) (method : D -> (exn + A) * D) : M D A :=
  fun d =>
    match method d with
    | (inr a, d') => (([Call c], Returns a), d')
    | (inl e, d') => (([Call c], Raises e), d')
    end.

Notation "x <~ m ;; k" := (mbind m (fun x => k))
  (at level 100, m at next level, right associativity) : w_scope.
Notation "m ~;; k" := (mbind m (fun _ => k))
  (at level 100, right associativity) : w_scope.

(** ** The completer *)

(** [Completion(text, start_position)] *)
Record Completion := {
  text : string;
  start_position : Z
}.

(** [PanCtl.commands] *)
Definition commands : list string :=
  [ "list-users"; "list-devices"; "export-keys"; "import-keys";
    "verify-device"; "unverify-device"; "start-verification";
    "accept-verification"; "confirm-verification" ].

Definition filter_words (words : list string) (last_word : string)
  : list string :=
  List.filter (fun word => Py.contains word last_word) words.

(** The [for compl_word in compl_words: yield Completion(..)] loops. *)
Definition completions (compl_words : list string) (last_word : string)
  : list Completion :=
  map (fun compl_word => Build_Completion compl_word (- Py.len last_word))
      compl_words.

Definition in_list (x : string) (l : list string) : bool :=
  existsb (String.eqb x) l.

Section PanCompleter.
Context {D : Type}.
Variable daemon : Daemon D.
(** [PathCompleter(expanduser=True).get_completions(Document(w), event)] *)
Variable path_completions : string -> list Completion.

Definition complete_commands (last_word : string) : M D (list Completion) :=
  let compl_words := filter_words commands last_word in
  mret (completions compl_words last_word).

Definition complete_users (last_word pan_user : string)
  : M D (list Completion) :=
  devices <~ call (DevicesList pan_user) (devices_list daemon pan_user) ;;
  let users : gset string := list_to_set (map user_id devices) in
  let compl_words := filter_words (elements users) last_word in
  mret (completions compl_words last_word).

Definition complete_devices (last_word pan_user user_id : string)
  : M D (list Completion) :=
  devices <~ call (ListUserDevices (VStr pan_user) (VStr user_id))
                  (devices_list_user_devices daemon (VStr pan_user)
                                             (VStr user_id)) ;;
  let device_ids := map device_id devices in
  let compl_words := filter_words device_ids last_word in
  mret (completions compl_words last_word).

Definition complete_pan_users (last_word : string) : M D (list Completion) :=
  users <~ call ListUsers (ctl_list_users daemon) ;;
  let compl_words := filter_words (map fst users) last_word in
  mret (completions compl_words last_word).

(** [words[i]]; the callers have checked [len(words)]. *)
Definition word (words : list string) (i : Z) : M D string :=
  match Py.getitem words i with
  | Some w => mret w
  | None => mraise IndexError
  end.

Definition complete_verification (command last_word : string)
    (words : list string) : M D (list Completion) :=
  if Nat.eqb (length words) 2 then complete_pan_users last_word
  else if Nat.eqb (length words) 3 then
    pan_user <~ word words 1 ;;
    complete_users last_word pan_user
  else if Nat.eqb (length words) 4 then
    pan_user <~ word words 1 ;;
    user_id <~ word words 2 ;;
    complete_devices last_word pan_user user_id
  else mret [].

Definition complete_key_file_cmds (command last_word : string)
    (words : list string) : M D (list Completion) :=
  if Nat.eqb (length words) 2 then complete_pan_users last_word
  else if Nat.eqb (length words) 3 then mret (path_completions last_word)
  else mret [].

Definition complete_list_devices (last_word : string) (words : list string)
  : M D (list Completion) :=
  if Nat.eqb (length words) 2 then complete_pan_users last_word
  else if Nat.eqb (length words) 3 then
    pan_user <~ word words 1 ;;
    complete_users last_word pan_user
  else mret [].

(** [get_completions], run to the end of the generator it returns. *)
Definition get_completions (text_before_cursor : string)
  : M D (list Completion) :=
  let words := Py.split_char " " text_before_cursor in
  last_word <~ word words (-1) ;;
  if Nat.eqb (length words) 1 then complete_commands last_word
  else if (1 <? length words)%nat then
    command <~ word words 0 ;;
    if in_list command
         [ "start-verification"; "accept-verification";
           "confirm-verification"; "cancel-verification";
           "verify-device"; "unverify-device" ]
    then complete_verification command last_word words
    else if in_list command [ "export-keys"; "import-keys" ]
    then complete_key_file_cmds command last_word words
    else if String.eqb command "list-devices"
    then complete_list_devices last_word words
    else mret []
  else mret [].

End PanCompleter.

(** ** [PanCtl], the prompt loop and [main] *)

(** What the operator does at a prompt: enter a line, close the input
    (EOFError) or interrupt (KeyboardInterrupt). *)
Inductive prompt_result :=
  | Line (result : string)
  | EndOfInput
  | Interrupt.

Definition nl : string := String "010" "".

(** [str(v)] as an f-string renders it. *)
Definition str_of_value (v : value) : string :=
  match v with
  | VNone => "None"
  | VStr s => s
  | VList l => "[" +:+ Py.join ", " (map (fun s => "'" +:+ s +:+ "'") l) +:+ "]"
  end.

(** [command == name] *)
Definition value_is (v : value) (name : string) : bool :=
  match v with
  | VStr s => String.eqb s name
  | _ => false
  end.

Section PanCtl.
Context {D : Type}.
Variable daemon : Daemon D.

(** [args.name] *)
Definition attr (args : Namespace) (name : string) : M D value :=
  match getattr args name with
  | Some v => mret v
  | None => mraise (AttributeError name)
  end.

Fixpoint for_each {X} (l : list X) (body : X -> M D unit) : M D unit :=
  match l with
  | [] => mret tt
  | x :: l' => body x ~;; for_each l' body
  end.

Definition list_users : M D unit :=
  users <~ call ListUsers (ctl_list_users daemon) ;;
  lift (print "pantalaimon users:") ~;;
  for_each users (fun '(user, device) =>
    lift (print (" " +:+ " " +:+ user +:+ " " +:+ device))).

Definition import_keys (args : Namespace) : M D unit :=
  pan_user <~ attr args "pan_user" ;;
  path <~ attr args "path" ;;
  passphrase <~ attr args "passphrase" ;;
  call (ImportKeys pan_user path passphrase)
       (ctl_import_keys daemon pan_user path passphrase).

Definition export_keys (args : Namespace) : M D unit :=
  pan_user <~ attr args "pan_user" ;;
  path <~ attr args "path" ;;
  passphrase <~ attr args "passphrase" ;;
  call (ExportKeys pan_user path passphrase)
       (ctl_export_keys daemon pan_user path passphrase).

Definition confirm_sas (args : Namespace) : M D unit :=
  pan_user <~ attr args "pan_user" ;;
  user_id <~ attr args "user_id" ;;
  device_id <~ attr args "device_id" ;;
  call (ConfirmSas pan_user user_id device_id)
       (devices_confirm_sas daemon pan_user user_id device_id).

Definition list_devices (args : Namespace) : M D unit :=
  pan_user <~ attr args "pan_user" ;;
  user_id <~ attr args "user_id" ;;
  devices <~ call (ListUserDevices pan_user user_id)
                  (devices_list_user_devices daemon pan_user user_id) ;;
  lift (emit (Write Stdout (Formatted
    ("Devices for user <b>" +:+ str_of_value user_id +:+ "</b>:")))) ~;;
  for_each devices (fun device =>
    let key := partition_key (fingerprint_key device) in
    match get_color (device_id device) with
    | None => mraise IndexError
    | Some color =>
        lift (emit (Write Stdout (Formatted
          (" - Device id:    <" +:+ color +:+ ">" +:+ device_id device
           +:+ "</" +:+ color +:+ ">" +:+ nl
           +:+ "   - Device key: <ansiyellow>" +:+ key
           +:+ "</ansiyellow>"))))
    end).

(** The [if command == ...] chain of [loop]. *)
Definition dispatch (parsed_args : Namespace) : M D unit :=
  command <~ attr parsed_args "subcommand" ;;
  if value_is command "list-users" then list_users
  else if value_is command "export-keys" then export_keys parsed_args
  else if value_is command "import-keys" then import_keys parsed_args
  else if value_is command "accept-verification" then mret tt
  else if value_is command "list-devices" then list_devices parsed_args
  else if value_is command "confirm-verification" then confirm_sas parsed_args
  else mret tt.

(** [parser.parse_args(result.split())] under [except ParseError]:
    [None] is the [continue] of the handler. *)
Definition parse_line (result : string) : W (option Namespace) :=
  try_except
    (parsed_args <- parse_args (Py.split_ws result) ;; ret (Some parsed_args))
    (fun e => match e with
              | ParseError => Some (ret None)
              | _ => None
              end).

(** One pass through the body of [while True] after a line was read. *)
Definition handle_line (result : string) : M D unit :=
  if String.eqb result "" then mret tt
  else
    parsed <~ lift (parse_line result) ;;
    match parsed with
    | None => mret tt
    | Some parsed_args => dispatch parsed_args
    end.

(** [PanCtl.loop], fed the operator's actions; when they run out the
    input is at its end. *)
Fixpoint loop (inputs : list prompt_result) : M D unit :=
  lift (emit ShowPrompt) ~;;
  match inputs with
  | [] => mret tt
  | EndOfInput :: _ => mret tt
  | Interrupt :: _ => mraise KeyboardInterrupt
  | Line result :: inputs' => handle_line result ~;; loop inputs'
  end.

(** The loop going on with [inputs] after it has left the trace [t]. *)
Definition after (t : list event) (inputs : list prompt_result) (d : D)
  : W unit * D :=
  let '((t', r), d') := loop inputs d in ((t ++ t', r), d').

(** [main]: [bus] is what constructing [PanCtl()] gives, the connected
    daemon or the exception raised. *)
Definition main (bus : exn + D) (inputs : list prompt_result) : W unit :=
  match bus with
  | inl DBusException =>
      print "Error, no pantalaimon bus found" ;;;
      raise (SystemExit (-1))
  | inl e => raise e
  | inr d =>
      try_except (fst (loop inputs d))
                 (fun e => match e with
                           | KeyboardInterrupt => Some (ret tt)
                           | _ => None
                           end)
  end.

End PanCtl.

(** The status the process ends with: [sys.exit(n)] gives [n], an uncaught
    exception 1. *)
Definition exit_status (w : W unit) : option Z :=
  match snd w with
  | Returns _ => Some 0
  | Raises (SystemExit n) => Some n
  | Raises _ => Some 1
  | OutOfFuel => None
  end.

(** A daemon with one account and one known device, for the examples. *)
Definition sample_device : Device :=
  {| device_id := "GHTYAJCE";
     fingerprint_key := "abcdefgh";
     user_id := "@bob:example.org" |}.

Definition sample_daemon : Daemon unit := {|
  ctl_list_users := fun d => (inr [("@alice:example.org", "PANDEVICE")], d);
  ctl_import_keys := fun _ _ _ d => (inr tt, d);
  ctl_export_keys := fun _ _ _ d => (inr tt, d);
  devices_list := fun _ d => (inr [sample_device], d);
  devices_list_user_devices := fun _ _ d => (inr [sample_device], d);
  devices_confirm_sas := fun _ _ _ d => (inr tt, d)
|}.

(** ** [show_sas]

    The emoji of a short authentication string lie outside the range of a
    Rocq character, so the strings of [show_sas] are lists of code points. *)

Module Sas.

(** A string literal of the source as code points. *)
Definition codes (s : string) : list Z :=
  map Py.ord (list_ascii_of_string s).

Definition space : Z := 32.

(** [s.center(width)]: unchanged when it is wide enough, else padded with
    spaces, [left = marg / 2 + (marg & width & 1)] of them in front. *)
Definition center (s : list Z) (width : Z) : list Z :=
  let n := Z.of_nat (length s) in
  if width <=? n then s
  else
    let marg := width - n in
    let left := marg / 2 + Z.land (Z.land marg width) 1 in
    replicate (Z.to_nat left) space ++ s
      ++ replicate (Z.to_nat (marg - left)) space.

Fixpoint is_prefix (p s : list Z) : bool :=
  match p, s with
  | [], _ => true
  | c :: p', d :: s' => (c =? d) && is_prefix p' s'
  | _ :: _, [] => false
  end.

(** [s.replace(old, new)] for a non-empty [old], scanning from the left;
    [skip] counts the characters of a match still to be passed over. *)
Fixpoint replace_from (skip : nat) (old new s : list Z) : list Z :=
  match s with
  | [] => []
  | c :: s' =>
      match skip with
      | S k => replace_from k old new s'
      | O =>
          if is_prefix old s
          then new ++ replace_from (length old - 1) old new s'
          else c :: replace_from 0 old new s'
      end
  end.

(** [s.replace(old, new)]; an empty [old] matches before every character
    and at the end. *)
Definition replace (s old new : list Z) : list Z :=
  match old with
  | [] => new ++ flat_map (fun c => c :: new) s
  | _ :: _ => replace_from 0 old new s
  end.

(** The glyphs that carry VARIATION SELECTOR-16 (U+FE0F). *)
Definition variation_selector_emojis : list (list Z) :=
  [ [0x2601; 0xFE0F]; [0x2764; 0xFE0F]; [0x2602; 0xFE0F]; [0x270F; 0xFE0F];
    [0x2702; 0xFE0F]; [0x260E; 0xFE0F]; [0x2708; 0xFE0F] ].

Definition center_emoji (emoji : list Z) (width : Z) : list Z :=
  let emoji_width := 2%nat in
  let emoji :=
    if bool_decide (emoji ∈ variation_selector_emojis)
    then emoji ++ [space] else emoji in
  let placeholder := replicate emoji_width 46 in
  replace (center placeholder width) placeholder emoji.

Definition centered_width : Z := 12.

(** [short_string]: the row of glyphs, a newline, the row of
    descriptions.  [emoji] is the list of (glyph, description) pairs of the
    signal. *)
Definition short_string (emoji : list (list Z * list Z)) : list Z :=
  let emojis := map fst emoji in
  let descriptions := map snd emoji in
  let emoji_str := concat (map (fun e => center_emoji e centered_width) emojis) in
  let desc := concat (map (fun d => center d centered_width) descriptions) in
  emoji_str ++ [10] ++ desc.

(** The text that [show_sas] prints. *)
Definition show_sas (pan_user user_id device_id : list Z)
    (emoji : list (list Z * list Z)) : list Z :=
  codes "Short authentication string for pan user " ++ pan_user
    ++ codes " from " ++ user_id ++ codes " via " ++ device_id
    ++ codes ":" ++ [10] ++ short_string emoji.

End Sas.

(** A parse leaves a framed trace: nothing when it returns, one error line
    before [ParseError], the help text before the exit with status 0, and
    nothing before any other exception.  [escapes] tells whether an
    [ArgumentError] may still be on its way to the handler. *)
Definition framed {X} (escapes : bool) (w : W X) : Prop :=
  match w with
  | (t, Returns _) => t = []
  | (t, Raises ParseError) => exists m, t = [Write Stdout (ErrorLine m)]
  | (t, Raises (SystemExit status)) =>
      status = 0 /\ exists sub, t = [Write Stdout (HelpText sub)]
  | (t, Raises (ArgumentError _)) => escapes = true /\ t = []
  | (t, Raises _) => t = []
  | (t, OutOfFuel) => t = []
  end.

(** What a completion run may do: at most one remote call, made first; a
    run that raises does so in that call; a run that returns gives an
    answer satisfying [P]. *)
Definition one_query {D X} (P : X -> Prop) (r : W X * D) : Prop :=
  match r with
  | ((t, Returns x), _) => (t = [] \/ exists c, t = [Call c]) /\ P x
  | ((t, Raises _), _) => exists c, t = [Call c]
  | ((_, OutOfFuel), _) => False
  end.

(** A candidate for [last_word]: a path completion of it, or a word that
    contains it and replaces exactly its characters. *)
Definition candidate_for (path_completions : string -> list Completion)
    (last_word : string) (c : Completion) : Prop :=
  In c (path_completions last_word)
  \/ (start_position c = - Py.len last_word
      /\ Py.contains (text c) last_word = true).

(** A daemon whose every method fails. *)
Definition failing_daemon : Daemon unit := {|
  ctl_list_users := fun d => (inl DBusException, d);
  ctl_import_keys := fun _ _ _ d => (inl DBusException, d);
  ctl_export_keys := fun _ _ _ d => (inl DBusException, d);
  devices_list := fun _ d => (inl DBusException, d);
  devices_list_user_devices := fun _ _ d => (inl DBusException, d);
  devices_confirm_sas := fun _ _ _ d => (inl DBusException, d)
|}.

(** ** Words that [argparse] reads as positional arguments *)

(** A word is positional when [_parse_optional] does not take it for a
    flag and it is not the [--] separator. *)
Definition is_positional_word (w : string) : bool :=
  match Argparse.parse_optional w with
  | Argparse.Positional => negb (String.eqb w "--")
  | _ => false
  end.

(** A word that does not begin with a dash; such a word is positional. *)
Definition plain_word (w : string) : bool :=
  match w with
  | EmptyString => true
  | String c _ => negb (Ascii.eqb c "-")
  end.

(** A computation is quiet when it leaves no trace whenever it returns. *)
Definition quiet {X} (w : W X) : Prop :=
  forall a, snd w = Returns a -> fst w = [].

(** A computation is total when it does not end for want of fuel. *)
Definition total {X} (w : W X) : Prop := snd w <> OutOfFuel.

(** * Properties *)

(** ** Presentation helpers *)

Section grouper_facts.
Context {A : Type} (fill : A).

(** Four references to one iterator read it four elements at a time; the
    result does not depend on the fuel once it exceeds the length. *)
Lemma zl_rounds_groups_of_4 (n : nat) :
  forall (l : list A) (fuel : nat),
    (length l <= n)%nat -> (length l < fuel)%nat ->
    zl_rounds fuel fill (replicate 4 (Live 0)) [l] 4 = groups_of_4 fill l.
Proof.
  induction n as [n IH] using lt_wf_ind.
  intros l fuel Hn Hfuel.
  destruct fuel as [|fuel]; [lia|].
  destruct l as [|a [|b [|c [|d l']]]].
  - reflexivity.
  - destruct fuel as [|fuel]; [simpl in Hfuel; lia|]. reflexivity.
  - destruct fuel as [|fuel]; [simpl in Hfuel; lia|]. reflexivity.
  - destruct fuel as [|fuel]; [simpl in Hfuel; lia|]. reflexivity.
  - simpl in Hn, Hfuel.
    change (zl_rounds (S fuel) fill (replicate 4 (Live 0))
                      [a :: b :: c :: d :: l'] 4)
      with ([a; b; c; d]
              :: zl_rounds fuel fill (replicate 4 (Live 0)) [l'] 4).
    rewrite (IH (length l')) by lia.
    reflexivity.
Qed.

Lemma grouper_groups_of_4 (l : list A) :
  grouper l 4 fill = groups_of_4 fill l.
Proof.
  unfold grouper, zip_longest.
  change (Z.of_nat (length (replicate 4 (Live 0))) =? 0) with false.
  cbv iota.
  change (Z.of_nat (length (replicate 4 (Live 0)))) with 4.
  apply (zl_rounds_groups_of_4 (length l)); lia.
Qed.

Lemma groups_of_4_length (n : nat) :
  forall l : list A,
    (length l <= n)%nat ->
    Forall (fun g => length g = 4%nat) (groups_of_4 fill l)
    /\ length (groups_of_4 fill l) = ((length l + 3) / 4)%nat.
Proof.
  induction n as [n IH] using lt_wf_ind.
  intros l Hn.
  destruct l as [|a [|b [|c [|d l']]]];
    try (split; [repeat constructor | reflexivity]).
  simpl in Hn.
  destruct (IH (length l') ltac:(lia) l' ltac:(lia)) as [Hall Hlen].
  split.
  - simpl. constructor; [reflexivity | exact Hall].
  - change (groups_of_4 fill (a :: b :: c :: d :: l'))
      with ([a; b; c; d] :: groups_of_4 fill l').
    simpl length. rewrite Hlen.
    replace (S (S (S (S (length l')))) + 3)%nat
      with (length l' + 3 + 1 * 4)%nat by lia.
    rewrite Nat.div_add by lia. lia.
Qed.

End grouper_facts.

Lemma length_string_of_list (l : list ascii) :
  String.length (string_of_list_ascii l) = length l.
Proof. induction l as [|c l IH]; simpl; [reflexivity | now rewrite IH]. Qed.

Lemma length_app_string (s t : string) :
  String.length (s +:+ t) = (String.length s + String.length t)%nat.
Proof. induction s as [|c s IH]; simpl; [reflexivity | now rewrite IH]. Qed.

(** Joining [n >= 1] pieces of four characters with single spaces gives
    [5 * n - 1] characters. *)
Lemma join_four_length (pieces : list string) :
  pieces <> [] ->
  Forall (fun s => String.length s = 4%nat) pieces ->
  (String.length (Py.join " " pieces) + 1 = 5 * length pieces)%nat.
Proof.
  induction pieces as [|x pieces IH]; [congruence|].
  intros _ Hall. inversion Hall as [|? ? Hx Hrest]; subst.
  destruct pieces as [|y pieces].
  - simpl. lia.
  - change (Py.join " " (x :: y :: pieces))
      with (x +:+ " " +:+ Py.join " " (y :: pieces)).
    rewrite !length_app_string.
    specialize (IH ltac:(congruence) Hrest).
    simpl String.length at 2. simpl length in *. lia.
Qed.

(** C7, counterexample.  The empty key gives the empty string, whose length
    0 is not a multiple of 5 minus 1. *)
Lemma partition_key_empty_length :
  partition_key "" = "" /\
  ~ (exists k : nat, (String.length (partition_key "") + 1 = 5 * k)%nat).
Proof.
  split; [reflexivity|].
  intros [k Hk]. change (partition_key "") with "" in Hk. simpl in Hk. lia.
Qed.

(** C7, as amended.  [partition_key] cuts the key into groups of four
    characters joined by single spaces and pads the last group with spaces;
    for a non-empty key of [n] characters the result has
    [5 * ceil(n / 4) - 1] characters, the empty key gives the empty string;
    ["abcdefgh"] gives ["abcd efgh"] and ["abcdefg"] gives ["abcd efg "]. *)
Theorem partition_key_groups :
  (forall key,
      partition_key key =
      Py.join " " (map string_of_list_ascii
                       (groups_of_4 " "%char (list_ascii_of_string key))))
  /\ (forall c key,
         (String.length (partition_key (String c key)) + 1
          = 5 * (String.length key / 4 + 1))%nat)
  /\ partition_key "" = ""
  /\ partition_key "abcdefgh" = "abcd efgh"
  /\ partition_key "abcdefg" = "abcd efg ".
Proof.
  assert (Hspec : forall key,
      partition_key key =
      Py.join " " (map string_of_list_ascii
                       (groups_of_4 " "%char (list_ascii_of_string key)))).
  { intros key. unfold partition_key. now rewrite grouper_groups_of_4. }
  split; [exact Hspec|].
  split; [|repeat split; reflexivity].
  intros c key. rewrite Hspec.
  set (l := list_ascii_of_string (String c key)).
  assert (Hl : length l = S (String.length key)).
  { subst l. simpl. f_equal.
    rewrite <- (string_of_list_ascii_of_string key) at 2.
    now rewrite length_string_of_list. }
  destruct (groups_of_4_length " "%char (length l) l (le_n _)) as [Hall Hlen].
  rewrite join_four_length.
  - rewrite length_map, Hlen, Hl.
    replace (S (String.length key) + 3)%nat
      with (String.length key + 1 * 4)%nat by lia.
    rewrite Nat.div_add by lia. reflexivity.
  - intros Hnil. apply (f_equal (@length _)) in Hnil.
    rewrite length_map, Hlen, Hl in Hnil.
    replace (S (String.length key) + 3)%nat
      with (String.length key + 1 * 4)%nat in Hnil by lia.
    rewrite Nat.div_add in Hnil by lia. simpl in Hnil. lia.
  - apply Forall_map. simpl. eapply Forall_impl; [exact Hall|].
    intros g Hg. simpl. now rewrite length_string_of_list.
Qed.

(** The shift-and-add of [djb2] is multiplication by 33, and the final mask
    keeps the low 32 bits. *)
Lemma djb2_codes_times_33 (codes : list Z) :
  djb2_codes codes
  = fold_left (fun hash x => 33 * hash + x) codes 5381 mod 2 ^ 32.
Proof.
  unfold djb2_codes.
  change 0xFFFFFFFF with (Z.ones 32).
  rewrite Z.land_ones by lia.
  f_equal.
  generalize 5381.
  induction codes as [|x codes IH]; intros h; simpl; [reflexivity|].
  rewrite IH. f_equal. rewrite Z.shiftl_mul_pow2 by lia. lia.
Qed.

Lemma get_color_codes_index (codes : list Z) :
  exists i : nat,
    (i < 5)%nat /\ Z.of_nat i = djb2_codes codes mod 5
    /\ get_color_codes codes = colors !! i.
Proof.
  unfold get_color_codes.
  pose proof (Z.mod_pos_bound (djb2_codes codes) 5 ltac:(lia)) as Hr.
  remember (djb2_codes codes mod 5) as r eqn:Er. clear Er.
  assert (Hcases : r = 0 \/ r = 1 \/ r = 2 \/ r = 3 \/ r = 4) by lia.
  destruct Hcases as [-> | [-> | [-> | [-> | ->]]]];
    [exists 0%nat | exists 1%nat | exists 2%nat | exists 3%nat | exists 4%nat];
    (split; [lia | split; reflexivity]).
Qed.

(** C2, the behaviour of the code.  The hash is reduced modulo 5, not
    modulo the 6 palette entries: the result is always one of the first
    five colors and ["ansimagenta"] is returned for no input.  The device id
    ["ALICEPHONE"] hashes to 4233515261, which is 5 modulo 6 and 1 modulo
    5: [get_color] answers ["ansigreen"] where reduction modulo the palette
    size selects ["ansimagenta"]. *)
Theorem get_color_never_last_entry :
  (forall codes, exists i : nat,
      (i < 5)%nat /\ Z.of_nat i = djb2_codes codes mod 5
      /\ get_color_codes codes = colors !! i)
  /\ (forall codes, get_color_codes codes <> Some "ansimagenta")
  /\ (forall s, get_color s <> Some "ansimagenta")
  /\ length colors = 6%nat
  /\ djb2 "ALICEPHONE" = 4233515261
  /\ Py.getitem colors (djb2 "ALICEPHONE" mod 6) = Some "ansimagenta"
  /\ get_color "ALICEPHONE" = Some "ansigreen".
Proof.
  assert (Hnot : forall codes, get_color_codes codes <> Some "ansimagenta").
  { intros codes.
    destruct (get_color_codes_index codes) as (i & Hi & _ & ->).
    destruct i as [|[|[|[|[|i]]]]]; simpl; try discriminate; lia. }
  split; [exact get_color_codes_index|].
  split; [exact Hnot|].
  split; [intros s; apply Hnot|].
  repeat split; vm_compute; reflexivity.
Qed.

(** ** The argument parser *)

Lemma plain_word_positional (w : string) :
  plain_word w = true -> is_positional_word w = true.
Proof.
  destruct w as [|c w]; [reflexivity|].
  unfold plain_word, is_positional_word, Argparse.parse_optional,
    Argparse.is_prefix_char.
  intros Hc. rewrite Hc.
  destruct (Ascii.eqb_spec c "-") as [->|Hne]; [discriminate|].
  simpl. destruct (Ascii.eqb_spec c "-"); [contradiction | reflexivity].
Qed.

Section abbreviations.
#[local] Arguments Ascii.eqb : simpl never.

(** With the two spellings of the help flag as the only option strings, an
  abbreviation never has two readings. *)
Lemma get_option_tuples_short (s : string) :
(length (Argparse.get_option_tuples s) <= 1)%nat.
Proof.
destruct s as [|c0 [|c1 tail]]; simpl; try lia.
unfold Argparse.is_prefix_char.
destruct (Ascii.eqb_spec c0 "-") as [->|H0]; simpl; [|lia].
destruct (Ascii.eqb_spec c1 "-") as [->|H1]; simpl.
- destruct (Argparse.split_eq tail) as [[a b]|]; simpl;
    rewrite ?Ascii.eqb_refl; simpl;
    change (Ascii.eqb "-" "h") with false; simpl;
    match goal with
    | |- context [if ?b then _ else _] => destruct b
    end; simpl; lia.
- assert (E : Ascii.eqb c1 "-" = false) by (now apply Ascii.eqb_neq).
  assert (E' : Ascii.eqb "-" c1 = false)
    by (apply Ascii.eqb_neq; congruence).
  rewrite ?Ascii.eqb_refl, ?E, ?E'. simpl.
  rewrite ?Ascii.eqb_refl, ?E, ?E'. simpl.
  repeat match goal with
         | |- context [if ?b then _ else _] => destruct b; simpl
         end; lia.
Qed.

End abbreviations.

Lemma parse_optional_not_ambiguous (s : string) (l : list Argparse.option_tuple) :
  Argparse.parse_optional s <> Argparse.Ambiguous l.
Proof.
  unfold Argparse.parse_optional.
  pose proof (get_option_tuples_short s) as Hlen.
  destruct s as [|c0 s']; [discriminate|].
  repeat match goal with
         | |- (if ?b then _ else _) <> _ => destruct b
         | |- (match ?x with _ => _ end) <> _ => destruct x eqn:?
         | |- (let _ := ?x in _) <> _ => cbv zeta
         end; try discriminate.
  simpl in Hlen. lia.
Qed.

Lemma is_positional_word_spec (w : string) :
  is_positional_word w = true ->
  Argparse.parse_optional w = Argparse.Positional /\ String.eqb w "--" = false.
Proof.
  unfold is_positional_word.
  destruct (Argparse.parse_optional w); try discriminate.
  destruct (String.eqb w "--"); [discriminate | auto].
Qed.

(** Classification of the argument strings never fails and gives one
    letter per string. *)
Lemma classify_total (args : list string) :
  exists pat, Argparse.classify args = ret pat /\ length pat = length args.
Proof.
  induction args as [|a args (pat & Hpat & Hlen)]; [exists []; split; reflexivity|].
  simpl. destruct (String.eqb a "--").
  - eexists; split; [reflexivity|]. simpl. now rewrite length_map.
  - destruct (Argparse.parse_optional a) eqn:Ha.
    + rewrite Hpat. eexists; split; [reflexivity|]. simpl. now rewrite Hlen.
    + rewrite Hpat. eexists; split; [reflexivity|]. simpl. now rewrite Hlen.
    + now apply parse_optional_not_ambiguous in Ha.
Qed.

Lemma classify_positional_head (v : string) (rest : list string) :
  is_positional_word v = true ->
  exists pat,
    Argparse.classify (v :: rest) = ret (Argparse.PA :: pat)
    /\ length pat = length rest.
Proof.
  intros Hv. apply is_positional_word_spec in Hv as [Hpos Hdd].
  destruct (classify_total rest) as (pat & Hpat & Hlen).
  exists pat. simpl. rewrite Hdd, Hpos, Hpat. split; [reflexivity | exact Hlen].
Qed.

Lemma classify_positional (ws : list string) :
  Forall (fun w => is_positional_word w = true) ws ->
  Argparse.classify ws = ret (map (fun _ => Argparse.PA) ws).
Proof.
  induction 1 as [|w ws Hw _ IH]; [reflexivity|].
  apply is_positional_word_spec in Hw as [Hpos Hdd].
  simpl. now rewrite Hdd, Hpos, IH.
Qed.

Lemma next_option_positional {X} (ws : list X) :
  Argparse.next_option (map (fun _ => Argparse.PA) ws) = None.
Proof. induction ws as [|w ws IH]; simpl; [reflexivity | now rewrite IH]. Qed.

Lemma get_values_positional (w : string) :
  is_positional_word w = true -> Argparse.get_values [w] = VStr w.
Proof.
  intros Hw. apply is_positional_word_spec in Hw as [_ Hdd].
  unfold Argparse.get_values. simpl. now rewrite Hdd.
Qed.

(** Laws of the effect monad used below. *)
Lemma bind_ret_l {X Y} (a : X) (k : X -> W Y) : (x <- ret a ;; k x) = k a.
Proof. unfold bind, ret. now destruct (k a). Qed.

Lemma bind_returns {X Y} (t : list event) (a : X) (k : X -> W Y) :
  bind (t, Returns a) k = (t ++ fst (k a), snd (k a)).
Proof. unfold bind. now destruct (k a). Qed.

Lemma bind_raises {X Y} (t : list event) (e : exn) (k : X -> W Y) :
  bind (t, Raises e) k = (t, Raises e).
Proof. reflexivity. Qed.

Section loop_equations.
Variable prog : option string.
Variable take_positional :
  Argparse.positional -> list string -> Namespace -> W Namespace.
Variable arg_strings : list string.
Variable pattern : list Argparse.arg_class.

#[local] Abbreviation consume_loop :=
  (Argparse.consume_loop prog take_positional arg_strings pattern).

(** No flag at or after [start_index]: the loop is over. *)
Lemma consume_loop_done (fuel start_index : nat) (st : Argparse.state) :
  Argparse.next_option (drop start_index pattern) = None ->
  consume_loop fuel start_index st = ret (st, start_index).
Proof.
  intros H.
  destruct fuel; simpl; now rewrite H.
Qed.

(** Positional arguments before the next flag are consumed first. *)
Lemma consume_loop_positionals (fuel start_index k : nat)
    (st : Argparse.state) :
  Argparse.next_option (drop start_index pattern) = Some (S k) ->
  forall t st' stop,
    Argparse.consume_positionals take_positional arg_strings pattern
      start_index st = (t, Returns (st', stop)) ->
    (start_index < stop)%nat ->
    consume_loop (S fuel) start_index st
    = bind (t, Returns tt) (fun _ => consume_loop fuel stop st').
Proof.
  intros H t st' stop Hpos Hlt.
  simpl. rewrite H.
  destruct (Nat.eqb_spec start_index (start_index + S k)) as [E|_]; [lia|].
  rewrite Hpos. rewrite !bind_returns. simpl.
  apply Nat.ltb_lt in Hlt. rewrite Hlt.
  now destruct (Argparse.consume_loop _ _ _ _ _ _ _).
Qed.

Lemma consume_loop_positionals_raises (fuel start_index k : nat)
    (st : Argparse.state) :
  Argparse.next_option (drop start_index pattern) = Some (S k) ->
  forall t e,
    Argparse.consume_positionals take_positional arg_strings pattern
      start_index st = (t, Raises e) ->
    consume_loop (S fuel) start_index st = (t, Raises e).
Proof.
  intros H t e Hpos.
  simpl. rewrite H.
  destruct (Nat.eqb_spec start_index (start_index + S k)) as [E|_]; [lia|].
  now rewrite Hpos.
Qed.

Lemma consume_loop_positionals_out_of_fuel (fuel start_index k : nat)
    (st : Argparse.state) :
  Argparse.next_option (drop start_index pattern) = Some (S k) ->
  forall t,
    Argparse.consume_positionals take_positional arg_strings pattern
      start_index st = (t, OutOfFuel) ->
    consume_loop (S fuel) start_index st = (t, OutOfFuel).
Proof.
  intros H t Hpos.
  simpl. rewrite H.
  destruct (Nat.eqb_spec start_index (start_index + S k)) as [E|_]; [lia|].
  now rewrite Hpos.
Qed.

End loop_equations.

(** The main parser, given a positional first word, hands the whole line to
    the subparsers action. *)
Lemma parse_classified_head (v : string) (rest : list string)
    (pat : list Argparse.arg_class) (ns : Namespace) :
  length pat = length rest ->
  Argparse.parse_classified None [Argparse.Subparsers "subcommand"]
    take_in_parser (v :: rest) (Argparse.PA :: pat) ns
  = (ns' <- take_subparsers "subcommand" (v :: rest) ns ;; ret (ns', [])).
Proof.
  intros Hlen.
  assert (Htake : take (S (length pat)) (v :: rest) = v :: rest).
  { simpl. f_equal. rewrite Hlen. apply firstn_all. }
  assert (Hdrop : drop (length pat) rest = []).
  { rewrite Hlen. apply skipn_all. }
  assert (Hdone : Argparse.next_option
                    (drop (S (length pat)) (Argparse.PA :: pat)) = None).
  { simpl. now rewrite skipn_all. }
  assert (Hpos :
    Argparse.consume_positionals take_in_parser (v :: rest)
      (Argparse.PA :: pat) 0
      (Argparse.State [Argparse.Subparsers "subcommand"] ns [])
    = (ns' <- take_subparsers "subcommand" (v :: rest) ns ;;
       ret (Argparse.State [] ns' [], S (length pat)))).
  { unfold Argparse.consume_positionals.
    cbn [Argparse.positionals Argparse.namespace Argparse.extras].
    change (Argparse.match_arguments_partial
              [Argparse.Subparsers "subcommand"] (drop 0 (Argparse.PA :: pat)))
      with [S (length pat)].
    cbn [Argparse.take_positionals length drop].
    change (drop 0 (v :: rest)) with (v :: rest).
    rewrite Htake. cbn [take_in_parser].
    destruct (take_subparsers "subcommand" (v :: rest) ns)
      as [t [ns'| |]]; cbn; rewrite ?app_nil_r; reflexivity. }
  assert (Hend : forall ns',
    Argparse.consume_positionals take_in_parser (v :: rest)
      (Argparse.PA :: pat) (S (length pat)) (Argparse.State [] ns' [])
    = ret (Argparse.State [] ns' [], S (length pat))).
  { intros ns'. reflexivity. }
  unfold Argparse.parse_classified.
  destruct (take_subparsers "subcommand" (v :: rest) ns) as [t o] eqn:HT.
  cbn [length].
  destruct (Argparse.next_option pat) as [k|] eqn:Hnext.
  - assert (Hopt : Argparse.next_option (drop 0 (Argparse.PA :: pat))
                   = Some (S k)) by (simpl; now rewrite Hnext).
    destruct o as [ns'| e |].
    + rewrite (consume_loop_positionals _ _ _ _ _ _ _ _ Hopt t
                 (Argparse.State [] ns' []) (S (length pat)));
        [| rewrite Hpos; cbn; now rewrite app_nil_r | lia].
      rewrite (consume_loop_done _ _ _ _ _ _ _ Hdone).
      cbn. rewrite Hdrop. cbn. now rewrite !app_nil_r.
    + rewrite (consume_loop_positionals_raises _ _ _ _ _ _ _ _ Hopt t e);
        [reflexivity | now rewrite Hpos].
    + rewrite (consume_loop_positionals_out_of_fuel _ _ _ _ _ _ _ _ Hopt t);
        [reflexivity | now rewrite Hpos].
  - assert (Hopt : Argparse.next_option (drop 0 (Argparse.PA :: pat)) = None)
      by (simpl; now rewrite Hnext).
    rewrite (consume_loop_done _ _ _ _ _ _ _ Hopt).
    rewrite bind_ret_l. rewrite Hpos.
    destruct o as [ns'| e |]; cbn; [|reflexivity..].
    rewrite Hdrop. cbn. now rewrite !app_nil_r.
Qed.

Lemma parse_args_head (v : string) (rest : list string) :
  is_positional_word v = true ->
  parse_args (v :: rest)
  = (r <- (r <- try_except
                  (ns' <- take_subparsers "subcommand" (v :: rest)
                                          [("subcommand", VNone)] ;;
                   ret (ns', []))
                  on_argument_error ;;
           let '(namespace, args) := r in
           match getattr namespace Argparse.unrecognized_args_attr with
           | Some (VList more) =>
               ret (delattr namespace Argparse.unrecognized_args_attr,
                    args ++ more)
           | _ => ret (namespace, args)
           end) ;;
     let '(args, argv) := r in
     match argv with
     | [] => ret args
     | _ :: _ => error (UnrecognizedArguments argv)
     end).
Proof.
  intros Hv.
  destruct (classify_positional_head v rest Hv) as (pat & Hpat & Hlen).
  unfold parse_args, Argparse.parse_known_args.
  rewrite Hpat, bind_ret_l.
  cbn [fold_left Argparse.dest_of getattr setattr].
  now rewrite (parse_classified_head v rest pat _ Hlen).
Qed.

(** A positional first word that names no registered parser is an invalid
    choice, whatever follows it. *)
Lemma parse_args_unknown (v : string) (rest : list string) :
  is_positional_word v = true ->
  name_parser_map !! v = None ->
  parse_args (v :: rest)
  = ([Write Stdout (ErrorLine (InvalidChoice v))], Raises ParseError).
Proof.
  intros Hv Hnone. rewrite (parse_args_head v rest Hv).
  unfold take_subparsers. rewrite Hnone. reflexivity.
Qed.

(** C1, the behaviour of the code.  [PanctlParser.__init__] registers
    ["verify-device"] twice and ["unverify-device"] never, so a line
    [unverify-device a b c] is an invalid choice for every three further
    words: [PanctlArgParse.error] prints the message and raises
    [ParseError]; no namespace is returned. *)
Theorem unverify_device_rejected :
  name_parser_map !! "unverify-device" = None
  /\ name_parser_map !! "verify-device"
     = Some ["pan_user"; "user_id"; "device_id"]
  /\ forall pan_user user_id device_id : string,
      parse_args ["unverify-device"; pan_user; user_id; device_id]
      = ([Write Stdout (ErrorLine (InvalidChoice "unverify-device"))],
         Raises ParseError).
Proof.
  split; [reflexivity|]. split; [reflexivity|].
  intros pan_user user_id device_id.
  apply parse_args_unknown; reflexivity.
Qed.

(** The parser of a subcommand on positional words: no flag, so the loop
    over flags is skipped and the final [consume_positionals] does all the
    work. *)
Lemma subparser_positional_words (name : string) (arguments ws : list string) :
  Forall (fun w => is_positional_word w = true) ws ->
  subparser_parse_known_args name arguments ws
  = (r <- try_except
            (r <- Argparse.consume_positionals take_in_subparser ws
                    (map (fun _ => Argparse.PA) ws) 0
                    (Argparse.State (map Argparse.Argument arguments)
                       (fold_left
                          (fun ns p =>
                             match getattr ns (Argparse.dest_of p) with
                             | Some _ => ns
                             | None => setattr ns (Argparse.dest_of p) VNone
                             end)
                          (map Argparse.Argument arguments) []) []) ;;
             let '(st, stop_index) := r in
             match Argparse.required_actions (Argparse.positionals st) with
             | [] => ret (Argparse.namespace st,
                          Argparse.extras st ++ drop stop_index ws)
             | (_ :: _) as names => error (ArgumentsRequired names)
             end)
            on_argument_error ;;
     let '(namespace, args) := r in
     match getattr namespace Argparse.unrecognized_args_attr with
     | Some (VList more) =>
         ret (delattr namespace Argparse.unrecognized_args_attr, args ++ more)
     | _ => ret (namespace, args)
     end).
Proof.
  intros Hws.
  unfold subparser_parse_known_args, Argparse.parse_known_args.
  rewrite (classify_positional ws Hws), bind_ret_l.
  unfold Argparse.parse_classified.
  rewrite consume_loop_done by apply next_option_positional.
  now rewrite bind_ret_l.
Qed.

(** The dict built by [PanctlParser.__init__] has eight keys. *)
Lemma name_parser_map_lookup (verb : string) (arguments : list string) :
  name_parser_map !! verb = Some arguments ->
  In (verb, arguments)
     [ ("export-keys", ["pan_user"; "path"; "passphrase"]);
       ("import-keys", ["pan_user"; "path"; "passphrase"]);
       ("verify-device", ["pan_user"; "user_id"; "device_id"]);
       ("confirm-verification", ["pan_user"; "user_id"; "device_id"]);
       ("accept-verification", ["pan_user"; "user_id"; "device_id"]);
       ("start-verification", ["pan_user"; "user_id"; "device_id"]);
       ("list-devices", ["pan_user"; "user_id"]);
       ("list-users", []) ].
Proof.
  intros H. unfold name_parser_map, add_parser in H. cbv zeta in H.
  repeat (rewrite lookup_insert in H;
          case_decide;
          [subst verb; inversion H; subst arguments; simpl; tauto|]).
  rewrite lookup_empty in H. discriminate.
Qed.

Ltac split_positional_words :=
  repeat match goal with
         | H : Forall _ (_ :: _) |- _ => inversion H; clear H; subst
         end.

Ltac run_parser :=
  unfold Argparse.consume_positionals;
  cbn -[Argparse.get_values];
  rewrite ?get_values_positional by assumption;
  reflexivity.

(** Arity is enforced on positional words, for each of the four argument
    lists that [PanctlParser.__init__] declares. *)
Lemma parse_args_arity (verb : string) (arguments ws : list string) :
  is_positional_word verb = true ->
  name_parser_map !! verb = Some arguments ->
  In arguments [ []; ["pan_user"; "user_id"];
                 ["pan_user"; "user_id"; "device_id"];
                 ["pan_user"; "path"; "passphrase"] ] ->
  Forall (fun w => is_positional_word w = true) ws ->
  (length ws = length arguments ->
   parse_args (verb :: ws)
   = ([], Returns (("subcommand", VStr verb) :: zip arguments (map VStr ws))))
  /\ ((length ws < length arguments)%nat ->
      parse_args (verb :: ws)
      = ([Write Stdout
            (ErrorLine (ArgumentsRequired (drop (length ws) arguments)))],
         Raises ParseError))
  /\ ((length arguments < length ws)%nat ->
      parse_args (verb :: ws)
      = ([Write Stdout
            (ErrorLine (UnrecognizedArguments (drop (length arguments) ws)))],
         Raises ParseError)).
Proof.
  intros Hverb Hlook Hin Hws.
  rewrite (parse_args_head verb ws Hverb).
  unfold take_subparsers. rewrite Hlook.
  rewrite (subparser_positional_words verb _ ws Hws).
  simpl in Hin.
  destruct Hin as [<- | [<- | [<- | [<- | []]]]].
  - destruct ws as [|w1 tl]; split_positional_words;
      (split; [|split]); intros Hlen; simpl in Hlen; try lia; run_parser.
  - destruct ws as [|w1 [|w2 [|w3 tl]]]; split_positional_words;
      (split; [|split]); intros Hlen; simpl in Hlen; try lia; run_parser.
  - destruct ws as [|w1 [|w2 [|w3 [|w4 tl]]]]; split_positional_words;
      (split; [|split]); intros Hlen; simpl in Hlen; try lia; run_parser.
  - destruct ws as [|w1 [|w2 [|w3 [|w4 tl]]]]; split_positional_words;
      (split; [|split]); intros Hlen; simpl in Hlen; try lia; run_parser.
Qed.

(** C3, counterexample.  Words that begin with a dash are not bound to
    parameters: [list-devices -x -y] supplies exactly the two declared words
    and is a parse failure, and [list-devices -- a b] supplies three words
    and parses. *)
Lemma arity_fails_on_dash_words :
  name_parser_map !! "list-devices" = Some ["pan_user"; "user_id"]
  /\ parse_args ["list-devices"; "-x"; "-y"]
     = ([Write Stdout (ErrorLine (ArgumentsRequired ["pan_user"; "user_id"]))],
        Raises ParseError)
  /\ parse_args ["list-devices"; "--"; "a"; "b"]
     = ([], Returns [("subcommand", VStr "list-devices");
                     ("pan_user", VStr "a"); ("user_id", VStr "b")]).
Proof. repeat split; reflexivity. Qed.

(** C3, as amended.  For every verb that the parser registers and every
    line whose further words are positional for [argparse] (in particular
    words that do not begin with a dash): exactly the declared number of
    words gives a namespace that binds the parameters to the words in order;
    fewer words are a parse failure (the missing arguments are reported);
    more words are a parse failure (the excess words are reported); hence a
    namespace is returned only when the count is exact. *)
Theorem arity_enforced_on_positional_words
    (verb : string) (arguments words : list string) :
  name_parser_map !! verb = Some arguments ->
  Forall (fun w => is_positional_word w = true) words ->
  (length words = length arguments ->
   parse_args (verb :: words)
   = ([], Returns (("subcommand", VStr verb)
                     :: zip arguments (map VStr words))))
  /\ ((length words < length arguments)%nat ->
      parse_args (verb :: words)
      = ([Write Stdout
            (ErrorLine (ArgumentsRequired (drop (length words) arguments)))],
         Raises ParseError))
  /\ ((length arguments < length words)%nat ->
      parse_args (verb :: words)
      = ([Write Stdout
            (ErrorLine (UnrecognizedArguments
                          (drop (length arguments) words)))],
         Raises ParseError))
  /\ (forall t ns,
         parse_args (verb :: words) = (t, Returns ns) ->
         length words = length arguments).
Proof.
  intros Hlook Hwords.
  assert (H : is_positional_word verb = true
              /\ In arguments [ []; ["pan_user"; "user_id"];
                                ["pan_user"; "user_id"; "device_id"];
                                ["pan_user"; "path"; "passphrase"] ]).
  { apply name_parser_map_lookup in Hlook. simpl in Hlook.
    repeat (destruct Hlook as [Hlook | Hlook];
            [inversion Hlook; subst; split; [reflexivity | simpl; tauto]|]).
    destruct Hlook. }
  destruct H as [Hverb Hin].
  destruct (parse_args_arity verb arguments words Hverb Hlook Hin Hwords)
    as (Hexact & Hfewer & Hmore).
  repeat split; try assumption.
  intros t ns Hret.
  destruct (Nat.lt_trichotomy (length words) (length arguments))
    as [Hlt | [Heq | Hgt]]; [| exact Heq |].
  - rewrite (Hfewer Hlt) in Hret. discriminate.
  - rewrite (Hmore Hgt) in Hret. discriminate.
Qed.

Lemma plain_words_positional (ws : list string) :
  Forall (fun w => plain_word w = true) ws ->
  Forall (fun w => is_positional_word w = true) ws.
Proof.
  intros H. eapply Forall_impl; [exact H|].
  intros w. apply plain_word_positional.
Qed.

Lemma arity_enforced_witness :
  parse_args ["list-devices"; "@alice:example.org"; "@bob:example.org"]
  = ([], Returns [("subcommand", VStr "list-devices");
                  ("pan_user", VStr "@alice:example.org");
                  ("user_id", VStr "@bob:example.org")]).
Proof.
  apply (arity_enforced_on_positional_words "list-devices"
           ["pan_user"; "user_id"]
           ["@alice:example.org"; "@bob:example.org"]).
  - reflexivity.
  - repeat constructor.
  - reflexivity.
Defined.

(** ** The prompt loop *)

(** A successful parse prints nothing: output comes only from
    [PanctlArgParse.error] and from the help action, and both end in an
    exception. *)

Lemma quiet_ret {X} (a : X) : quiet (ret a).
Proof. intros ? _. reflexivity. Qed.

Lemma quiet_raise {X} (e : exn) : quiet (@raise X e).
Proof. intros ? H. discriminate. Qed.

Lemma quiet_error {X} (m : message) : quiet (@error X m).
Proof. intros ? H. discriminate. Qed.

Lemma quiet_bind {X Y} (m : W X) (k : X -> W Y) :
  quiet m -> (forall a, quiet (k a)) -> quiet (bind m k).
Proof.
  intros Hm Hk b. destruct m as [t [a| e |]]; simpl; try discriminate.
  specialize (Hk a b). specialize (Hm a eq_refl). simpl in Hm. subst t.
  destruct (k a) as [t' r]. simpl in *. exact Hk.
Qed.

Lemma quiet_try_argument_error {X} (m : W X) :
  quiet m -> quiet (try_except m on_argument_error).
Proof.
  intros Hm a. destruct m as [t [b| e |]]; simpl; try discriminate.
  - intros H. exact (Hm b eq_refl).
  - destruct e; simpl; discriminate.
Qed.

Create HintDb quiet.
#[local] Hint Resolve quiet_ret quiet_raise quiet_error quiet_bind
  quiet_try_argument_error : quiet.

Lemma quiet_classify (args : list string) : quiet (Argparse.classify args).
Proof.
  induction args as [|a args IH]; simpl; auto with quiet.
  destruct (String.eqb a "--"); auto with quiet.
  destruct (Argparse.parse_optional a); auto with quiet.
Qed.

Section quiet_parser.
Variable prog : option string.
Variable parser_positionals : list Argparse.positional.
Variable take_positional :
  Argparse.positional -> list string -> Namespace -> W Namespace.
Hypothesis quiet_take_positional :
  forall p args ns, quiet (take_positional p args ns).

Lemma quiet_take_positionals arg_strings actions :
  forall arg_counts start_index ns,
    quiet (Argparse.take_positionals take_positional arg_strings
             actions arg_counts start_index ns).
Proof.
  induction actions as [|action actions IH];
    intros [|c arg_counts] start_index ns; simpl; auto with quiet.
Qed.

Lemma quiet_consume_positionals arg_strings pattern start_index st :
  quiet (Argparse.consume_positionals take_positional arg_strings pattern
           start_index st).
Proof.
  unfold Argparse.consume_positionals.
  apply quiet_bind; [apply quiet_take_positionals|].
  intros [ns i]. auto with quiet.
Qed.

Lemma take_optionals_never_returns action_tuples :
  action_tuples <> [] ->
  forall r, snd (Argparse.take_optionals prog action_tuples) <> Returns r.
Proof.
  destruct action_tuples as [|[[] s] l]; [congruence|].
  intros _ r. simpl. discriminate.
Qed.

Lemma quiet_explicit_tuples explicit_arg :
  forall a option_string action_tuples,
    quiet (Argparse.explicit_tuples a option_string explicit_arg
             action_tuples).
Proof.
  induction explicit_arg as [|c e IH]; intros a option_string action_tuples;
    cbn [Argparse.explicit_tuples]; cbv zeta;
    repeat match goal with
           | |- quiet (if ?b then _ else _) => destruct b
           | |- quiet (match ?x with _ => _ end) => destruct x
           end; auto with quiet.
Qed.

Lemma explicit_tuples_nonempty explicit_arg :
  forall a option_string action_tuples t l,
    Argparse.explicit_tuples a option_string explicit_arg action_tuples
    = (t, Returns l) -> l <> [].
Proof.
  induction explicit_arg as [|c e IH];
    intros a option_string action_tuples t l;
    cbn [Argparse.explicit_tuples]; cbv zeta.
  - destruct (negb _); discriminate.
  - destruct (negb _); [|discriminate].
    destruct (Argparse.assoc _ _) as [a'|]; [|discriminate].
    destruct e as [|c' e'].
    + intros H. inversion H. now destruct action_tuples.
    + apply IH.
Qed.

Lemma quiet_consume_optional arg_strings pattern start_index st :
  quiet (Argparse.consume_optional prog arg_strings pattern start_index st).
Proof.
  unfold Argparse.consume_optional.
  destruct (pattern !! start_index) as [[|[[[a|] option_string] e]|]|];
    auto with quiet.
  intros r.
  destruct e as [e|].
  - destruct (Argparse.explicit_tuples a option_string e [])
      as [t [l| |]] eqn:He; simpl; try discriminate.
    pose proof (explicit_tuples_nonempty _ _ _ _ _ _ He) as Hl.
    pose proof (take_optionals_never_returns l Hl) as Hnever.
    destruct (Argparse.take_optionals prog l) as [t' [u| |]];
      simpl in *; try discriminate.
    now destruct (Hnever u).
  - rewrite bind_ret_l.
    destruct a. simpl. discriminate.
Qed.

Lemma quiet_consume_loop arg_strings pattern fuel :
  forall start_index st,
    quiet (Argparse.consume_loop prog take_positional arg_strings pattern
             fuel start_index st).
Proof.
  induction fuel as [|fuel IH]; intros start_index st; simpl;
    destruct (Argparse.next_option _) as [k|]; auto with quiet.
  - intros ? H. discriminate.
  - assert (Hat : forall st i,
      quiet (let '(st0, start_index0) :=
               if (i =? start_index + k)%nat then (st, i)
               else (Argparse.State (Argparse.positionals st)
                       (Argparse.namespace st)
                       (Argparse.extras st ++
                        take (start_index + k - i) (drop i arg_strings)),
                     (start_index + k)%nat) in
             r <- Argparse.consume_optional prog arg_strings pattern
                    start_index0 st0 ;;
             let '(st1, start_index1) := r in
             Argparse.consume_loop prog take_positional arg_strings pattern
               fuel start_index1 st1)).
    { intros st0 i. destruct (i =? start_index + k)%nat;
        (apply quiet_bind; [apply quiet_consume_optional|]);
        intros [st1 i1]; apply IH. }
    destruct (start_index =? start_index + k)%nat eqn:E.
    + specialize (Hat st start_index). rewrite E in Hat. exact Hat.
    + apply quiet_bind; [apply quiet_consume_positionals|].
      intros [st' stop]. destruct (start_index <? stop)%nat; [apply IH|].
      apply Hat.
Qed.

Lemma quiet_parse_known_args args :
  quiet (Argparse.parse_known_args prog parser_positionals take_positional
           args).
Proof.
  unfold Argparse.parse_known_args.
  apply quiet_bind.
  - apply quiet_try_argument_error.
    apply quiet_bind; [apply quiet_classify|]. intros pattern.
    unfold Argparse.parse_classified.
    apply quiet_bind; [apply quiet_consume_loop|]. intros [st i].
    apply quiet_bind; [apply quiet_consume_positionals|]. intros [st' j].
    destruct (Argparse.required_actions _); auto with quiet.
  - intros [ns rest].
    destruct (getattr ns _) as [[| |]|]; auto with quiet.
Qed.

End quiet_parser.

Lemma quiet_take_in_subparser p args ns : quiet (take_in_subparser p args ns).
Proof. destruct p; simpl; unfold store; auto with quiet. Qed.

Lemma quiet_take_in_parser p args ns : quiet (take_in_parser p args ns).
Proof.
  destruct p as [dest|dest]; simpl; [|unfold store; auto with quiet].
  unfold take_subparsers.
  destruct args as [|parser_name arg_strings]; auto with quiet.
  destruct (name_parser_map !! parser_name) as [arguments|]; auto with quiet.
  apply quiet_bind.
  - apply quiet_parse_known_args. apply quiet_take_in_subparser.
  - intros [subnamespace rest]. destruct rest; auto with quiet.
Qed.

(** [parse_args] prints only when it fails. *)
Lemma quiet_parse_args (argv : list string) : quiet (parse_args argv).
Proof.
  unfold parse_args.
  apply quiet_bind.
  - apply quiet_parse_known_args. apply quiet_take_in_parser.
  - intros [args rest]. destruct rest; auto with quiet.
Qed.

(** *** The parser ends within its fuel *)

Lemma total_ret {X} (a : X) : total (ret a).
Proof. discriminate. Qed.

Lemma total_raise {X} (e : exn) : total (@raise X e).
Proof. discriminate. Qed.

Lemma total_error {X} (m : message) : total (@error X m).
Proof. discriminate. Qed.

Lemma total_bind {X Y} (m : W X) (k : X -> W Y) :
  total m -> (forall t a, m = (t, Returns a) -> total (k a)) ->
  total (bind m k).
Proof.
  intros Hm Hk. destruct m as [t [a| e |]]; simpl.
  - specialize (Hk t a eq_refl). unfold total in *.
    now destruct (k a) as [t' r].
  - discriminate.
  - now destruct Hm.
Qed.

Lemma total_try_argument_error {X} (m : W X) :
  total m -> total (try_except m on_argument_error).
Proof.
  intros Hm. destruct m as [t [a| e |]]; simpl; try assumption.
  destruct e; simpl; try assumption; discriminate.
Qed.

Create HintDb total.
#[local] Hint Resolve total_ret total_raise total_error
  total_try_argument_error : total.

Lemma next_option_bound (pat : list Argparse.arg_class) (k : nat) :
  Argparse.next_option pat = Some k -> (k < length pat)%nat.
Proof.
  revert k. induction pat as [|c pat IH]; intros k; simpl; [discriminate|].
  destruct (Argparse.is_O c).
  - intros H. inversion H. lia.
  - destruct (Argparse.next_option pat) as [k'|]; [|discriminate].
    intros H. inversion H. specialize (IH k' eq_refl). lia.
Qed.

Section total_parser.
Variable prog : option string.
Variable parser_positionals : list Argparse.positional.
Variable take_positional :
  Argparse.positional -> list string -> Namespace -> W Namespace.
Hypothesis total_take_positional :
  forall p args ns, total (take_positional p args ns).

Lemma total_take_positionals arg_strings actions :
  forall arg_counts start_index ns,
    total (Argparse.take_positionals take_positional arg_strings
             actions arg_counts start_index ns).
Proof.
  induction actions as [|action actions IH];
    intros [|c arg_counts] start_index ns; simpl; auto with total.
  apply total_bind; auto.
Qed.

Lemma total_consume_positionals arg_strings pattern start_index st :
  total (Argparse.consume_positionals take_positional arg_strings pattern
           start_index st).
Proof.
  unfold Argparse.consume_positionals.
  apply total_bind; [apply total_take_positionals|].
  intros t [ns i] _. auto with total.
Qed.

Lemma total_explicit_tuples explicit_arg :
  forall a option_string action_tuples,
    total (Argparse.explicit_tuples a option_string explicit_arg
             action_tuples).
Proof.
  induction explicit_arg as [|c e IH]; intros a option_string action_tuples;
    cbn [Argparse.explicit_tuples]; cbv zeta;
    repeat match goal with
           | |- total (if ?b then _ else _) => destruct b
           | |- total (match ?x with _ => _ end) => destruct x
           end; auto with total.
Qed.

Lemma total_take_optionals action_tuples :
  total (Argparse.take_optionals prog action_tuples).
Proof. destruct action_tuples as [|[[] s] l]; simpl; discriminate. Qed.

Lemma total_consume_optional arg_strings pattern start_index st :
  total (Argparse.consume_optional prog arg_strings pattern start_index st).
Proof.
  unfold Argparse.consume_optional.
  destruct (pattern !! start_index) as [[|[[[a|] option_string] e]|]|];
    auto with total.
  apply total_bind.
  - destruct e; [apply total_explicit_tuples | auto with total].
  - intros t l _. apply total_bind; [apply total_take_optionals|].
    auto with total.
Qed.

(** A flag takes exactly its own argument string. *)
Lemma consume_optional_index arg_strings pattern start_index st t st' stop :
  Argparse.consume_optional prog arg_strings pattern start_index st
  = (t, Returns (st', stop)) ->
  stop = S start_index.
Proof.
  unfold Argparse.consume_optional.
  destruct (pattern !! start_index) as [[|[[[a|] option_string] e]|]|];
    try discriminate.
  - destruct (match e with
              | Some e0 => Argparse.explicit_tuples a option_string e0 []
              | None => ret [(a, option_string)]
              end) as [t0 [l| |]]; simpl; try discriminate.
    destruct (Argparse.take_optionals prog l) as [t1 [[]| |]]; simpl;
      try discriminate.
    intros H. now inversion H.
  - intros H. now inversion H.
Qed.

(** Every round of the loop moves [start_index] forward, so it is over
    before the fuel is. *)
Lemma total_consume_loop arg_strings pattern fuel :
  forall start_index st,
    (length pattern < fuel + start_index)%nat ->
    total (Argparse.consume_loop prog take_positional arg_strings pattern
             fuel start_index st).
Proof.
  induction fuel as [|fuel IH]; intros start_index st Hfuel; simpl;
    destruct (Argparse.next_option (drop start_index pattern)) as [k|] eqn:Hk;
    auto with total.
  - apply next_option_bound in Hk. rewrite length_drop in Hk. lia.
  - assert (Hat : forall st0 i,
      (start_index <= i)%nat ->
      total (let '(st1, start_index0) :=
               if (i =? start_index + k)%nat then (st0, i)
               else (Argparse.State (Argparse.positionals st0)
                       (Argparse.namespace st0)
                       (Argparse.extras st0 ++
                        take (start_index + k - i) (drop i arg_strings)),
                     (start_index + k)%nat) in
             r <- Argparse.consume_optional prog arg_strings pattern
                    start_index0 st1 ;;
             let '(st2, start_index1) := r in
             Argparse.consume_loop prog take_positional arg_strings pattern
               fuel start_index1 st2)).
    { intros st0 i Hi.
      destruct (i =? start_index + k)%nat;
        (apply total_bind; [apply total_consume_optional|]);
        intros t [st2 j] Hopt; apply consume_optional_index in Hopt;
        apply IH; lia. }
    destruct (start_index =? start_index + k)%nat eqn:E.
    + specialize (Hat st start_index (le_n _)). rewrite E in Hat. exact Hat.
    + apply total_bind; [apply total_consume_positionals|].
      intros t [st' stop] _.
      destruct (Nat.ltb_spec start_index stop); [apply IH; lia|].
      (* nothing was consumed: [stop] is [start_index] or less *)
      destruct (Nat.eqb_spec stop (start_index + k)) as [->|Hne].
      * apply total_bind; [apply total_consume_optional|].
        intros t' [st2 j] Hopt. apply consume_optional_index in Hopt.
        apply IH. lia.
      * apply total_bind; [apply total_consume_optional|].
        intros t' [st2 j] Hopt. apply consume_optional_index in Hopt.
        apply IH. lia.
Qed.

Lemma total_parse_known_args args :
  total (Argparse.parse_known_args prog parser_positionals take_positional
           args).
Proof.
  unfold Argparse.parse_known_args.
  destruct (classify_total args) as (pat & Hpat & Hlen).
  rewrite Hpat, bind_ret_l.
  apply total_bind.
  - apply total_try_argument_error.
    unfold Argparse.parse_classified.
    apply total_bind; [apply total_consume_loop; lia|]. intros t [st i] _.
    apply total_bind; [apply total_consume_positionals|]. intros t' [st' j] _.
    destruct (Argparse.required_actions _); auto with total.
  - intros t [ns rest] _.
    destruct (getattr ns _) as [[| |]|]; auto with total.
Qed.

End total_parser.

Lemma total_take_in_subparser p args ns : total (take_in_subparser p args ns).
Proof. destruct p; simpl; unfold store; auto with total. Qed.

Lemma total_take_in_parser p args ns : total (take_in_parser p args ns).
Proof.
  destruct p as [dest|dest]; simpl; [|unfold store; auto with total].
  unfold take_subparsers.
  destruct args as [|parser_name arg_strings]; auto with total.
  destruct (name_parser_map !! parser_name) as [arguments|]; auto with total.
  apply total_bind.
  - apply total_parse_known_args. apply total_take_in_subparser.
  - intros t [subnamespace rest] _. destruct rest; auto with total.
Qed.

(** [parse_args] returns a namespace or raises, for every argument list:
    the fuel of the embedding is never the limit. *)
Lemma total_parse_args (argv : list string) : total (parse_args argv).
Proof.
  unfold parse_args.
  apply total_bind.
  - apply total_parse_known_args. apply total_take_in_parser.
  - intros t [args rest] _. destruct rest; auto with total.
Qed.

Section loop_facts.
Context {D : Type}.
Variable daemon : Daemon D.

Lemma loop_line (result : string) (inputs : list prompt_result) (d : D) :
  loop daemon (Line result :: inputs) d
  = match handle_line daemon result d with
    | ((t, Returns _), d') => after daemon (ShowPrompt :: t) inputs d'
    | ((t, Raises e), d') => ((ShowPrompt :: t, Raises e), d')
    | ((t, OutOfFuel), d') => ((ShowPrompt :: t, OutOfFuel), d')
    end.
Proof.
  unfold after. cbn [loop]. unfold mbind at 1. cbn [lift emit].
  unfold mbind at 1.
  destruct (handle_line daemon result d) as [[t [[]| e |]] d'];
    try reflexivity.
  destruct (loop daemon inputs d') as [[t' r] d'']. reflexivity.
Qed.

(** A parse failure is reported and the loop goes on. *)
Lemma handle_line_parse_error (result : string) (t : list event) (d : D) :
  result <> "" ->
  parse_args (Py.split_ws result) = (t, Raises ParseError) ->
  handle_line daemon result d = ((t, Returns tt), d).
Proof.
  intros Hne Hparse. unfold handle_line.
  destruct (String.eqb_spec result "") as [->|_]; [congruence|].
  unfold mbind, lift, parse_line. rewrite Hparse. cbn.
  now rewrite !app_nil_r.
Qed.

Lemma handle_line_parsed (result : string) (parsed_args : Namespace)
    (d : D) :
  result <> "" ->
  snd (parse_args (Py.split_ws result)) = Returns parsed_args ->
  handle_line daemon result d = dispatch daemon parsed_args d.
Proof.
  intros Hne Hparse. unfold handle_line.
  destruct (String.eqb_spec result "") as [->|_]; [congruence|].
  pose proof (quiet_parse_args (Py.split_ws result) parsed_args Hparse) as Hq.
  unfold mbind, lift, parse_line.
  destruct (parse_args (Py.split_ws result)) as [t r]. simpl in *. subst.
  cbn. now destruct (dispatch daemon parsed_args d) as [[t r] d'].
Qed.

End loop_facts.

Lemma split_ws_nonempty (result : string) (v : string) (rest : list string) :
  Py.split_ws result = v :: rest -> result <> "".
Proof. intros H ->. discriminate. Qed.

(** An unknown command that does not read as a flag is reported and the
    loop shows the next prompt. *)
Lemma unknown_command_reported {D} (daemon : Daemon D) (d : D)
    (result v : string) (rest : list string) (inputs : list prompt_result) :
  Py.split_ws result = v :: rest ->
  is_positional_word v = true ->
  name_parser_map !! v = None ->
  loop daemon (Line result :: inputs) d
  = after daemon [ShowPrompt; Write Stdout (ErrorLine (InvalidChoice v))]
          inputs d.
Proof.
  intros Hsplit Hv Hnone. rewrite loop_line.
  rewrite (handle_line_parse_error daemon result
             [Write Stdout (ErrorLine (InvalidChoice v))]).
  - reflexivity.
  - eapply split_ws_nonempty; eauto.
  - rewrite Hsplit. now apply parse_args_unknown.
Qed.

(** C4, the behaviour of the code.  The line [-h] (or [--help]) begins with
    a word that is no command name, yet it is not a parse failure: the main
    parser takes it for its help flag, prints the help text and calls
    [exit()].  [SystemExit] is not [ParseError], so [loop] does not catch
    it, no further prompt is shown and the remaining input is never read;
    [main] ends with it. *)
Theorem help_flag_ends_the_loop :
  forall (D : Type) (daemon : Daemon D) (d : D) (inputs : list prompt_result),
    name_parser_map !! "-h" = None
    /\ parse_args (Py.split_ws "-h")
       = ([Write Stdout (HelpText None)], Raises (SystemExit 0))
    /\ loop daemon (Line "-h" :: inputs) d
       = (([ShowPrompt; Write Stdout (HelpText None)], Raises (SystemExit 0)), d)
    /\ loop daemon (Line "--help" :: inputs) d
       = (([ShowPrompt; Write Stdout (HelpText None)], Raises (SystemExit 0)), d)
    /\ main daemon (inr d) (Line "-h" :: inputs)
       = ([ShowPrompt; Write Stdout (HelpText None)], Raises (SystemExit 0)).
Proof.
  intros D daemon d inputs.
  assert (Hh : handle_line daemon "-h" d
               = (([Write Stdout (HelpText None)], Raises (SystemExit 0)), d))
    by reflexivity.
  assert (Hhelp : handle_line daemon "--help" d
               = (([Write Stdout (HelpText None)], Raises (SystemExit 0)), d))
    by reflexivity.
  split; [reflexivity|]. split; [reflexivity|].
  split; [now rewrite loop_line, Hh|].
  split; [now rewrite loop_line, Hhelp|].
  unfold main. cbn [fst]. now rewrite loop_line, Hh.
Qed.

(** C8.  Dispatching a parsed [accept-verification] invocation does
    nothing: no remote call, no output, the daemon is left as it was, and
    the loop shows the next prompt and goes on with the remaining input. *)
Theorem accept_verification_is_a_no_op :
  forall (D : Type) (daemon : Daemon D) (d : D) (parsed_args : Namespace),
    getattr parsed_args "subcommand" = Some (VStr "accept-verification") ->
    dispatch daemon parsed_args d = (([], Returns tt), d)
    /\ forall (result : string) (inputs : list prompt_result),
        result <> "" ->
        snd (parse_args (Py.split_ws result)) = Returns parsed_args ->
        handle_line daemon result d = (([], Returns tt), d)
        /\ loop daemon (Line result :: inputs) d
           = after daemon [ShowPrompt] inputs d.
Proof.
  intros D daemon d parsed_args Hcmd.
  assert (Hdispatch : dispatch daemon parsed_args d = (([], Returns tt), d)).
  { unfold dispatch, attr, mbind. rewrite Hcmd. reflexivity. }
  split; [exact Hdispatch|].
  intros result inputs Hne Hparse.
  assert (Hline : handle_line daemon result d = (([], Returns tt), d)).
  { rewrite (handle_line_parsed daemon result parsed_args d Hne Hparse).
    exact Hdispatch. }
  split; [exact Hline|].
  now rewrite loop_line, Hline.
Qed.

Lemma accept_verification_witness :
  loop sample_daemon
       [Line "accept-verification @alice:example.org @bob:example.org GHTYAJCE"]
       tt
  = after sample_daemon [ShowPrompt] [] tt.
Proof.
  apply (accept_verification_is_a_no_op unit sample_daemon tt
           [("subcommand", VStr "accept-verification");
            ("pan_user", VStr "@alice:example.org");
            ("user_id", VStr "@bob:example.org");
            ("device_id", VStr "GHTYAJCE")]).
  - reflexivity.
  - discriminate.
  - reflexivity.
Defined.

(** C9, counterexample.  When no bus is found the message is written to
    standard output; nothing is written to standard error. *)
Lemma startup_failure_prints_to_stdout :
  main sample_daemon (inl DBusException) []
  = ([Write Stdout (Text "Error, no pantalaimon bus found")],
     Raises (SystemExit (-1)))
  /\ ~ (exists o, In (Write Stderr o)
                     (fst (main sample_daemon (inl DBusException) []))).
Proof.
  split; [reflexivity|].
  intros [o [H|[]]]. discriminate.
Qed.

(** C9, as amended.  If constructing [PanCtl()] raises [DBusException],
    [main] prints the diagnostic on standard output, exits with status -1
    (non-zero) and never shows a prompt or reads input. *)
Theorem startup_failure_is_fatal :
  forall (D : Type) (daemon : Daemon D) (inputs : list prompt_result),
    main daemon (inl DBusException) inputs
    = ([Write Stdout (Text "Error, no pantalaimon bus found")],
       Raises (SystemExit (-1)))
    /\ exit_status (main daemon (inl DBusException) inputs) = Some (-1)
    /\ -1 <> 0
    /\ ~ In ShowPrompt (fst (main daemon (inl DBusException) inputs)).
Proof.
  intros D daemon inputs. repeat split; try reflexivity; try lia.
  intros [H|[]]. discriminate.
Qed.

(** ** The completer *)

Lemma startswith_spec (s p : string) :
  Py.startswith s p = true <-> exists post, s = p +:+ post.
Proof.
  revert s. induction p as [|c p IH]; intros s.
  - split; [intros _; now exists s | now destruct s].
  - destruct s as [|d s]; simpl.
    + split; [discriminate | intros [post H]; discriminate].
    + destruct (Ascii.eqb_spec c d) as [->|Hne].
      * rewrite IH. split; intros [post H]; exists post.
        -- now rewrite H.
        -- now inversion H.
      * split; [discriminate|]. intros [post H]. inversion H. congruence.
Qed.

(** [last_word in word] holds exactly when [last_word] occurs somewhere
    inside [word], character for character. *)
Lemma contains_spec (hay needle : string) :
  Py.contains hay needle = true
  <-> exists pre post, hay = pre +:+ needle +:+ post.
Proof.
  induction hay as [|c hay IH].
  - change (Py.contains "" needle) with (Py.startswith "" needle || false).
    rewrite orb_false_r, startswith_spec. split.
    + intros [post H]. now exists "", post.
    + intros (pre & post & H). destruct pre; [|discriminate].
      now exists post.
  - change (Py.contains (String c hay) needle)
      with (Py.startswith (String c hay) needle || Py.contains hay needle).
    rewrite orb_true_iff, startswith_spec, IH. split.
    + intros [[post H] | (pre & post & H)].
      * now exists "", post.
      * exists (String c pre), post. now rewrite H.
    + intros (pre & post & H). destruct pre as [|c' pre].
      * left. now exists post.
      * right. inversion H. now exists pre, post.
Qed.

Lemma filter_words_spec (words : list string) (last_word w : string) :
  In w (filter_words words last_word)
  <-> In w words /\ exists pre post, w = pre +:+ last_word +:+ post.
Proof.
  unfold filter_words. now rewrite filter_In, contains_spec.
Qed.

Lemma completions_spec (compl_words : list string) (last_word : string)
    (c : Completion) :
  In c (completions compl_words last_word)
  <-> In (text c) compl_words /\ start_position c = - Py.len last_word.
Proof.
  unfold completions. rewrite in_map_iff. split.
  - intros (w & <- & Hw). now split.
  - intros [Hw Hpos]. exists (text c). split; [|exact Hw].
    destruct c as [t p]. simpl in *. now subst.
Qed.

Lemma split_char_nonempty (sep : ascii) (s : string) :
  Py.split_char sep s <> [].
Proof.
  destruct s as [|c s]; simpl; [discriminate|].
  destruct (Ascii.eqb c sep); [discriminate|].
  destruct (Py.split_char sep s); discriminate.
Qed.

(** A buffer without a space is a single word, the buffer itself. *)
Lemma split_char_single (sep : ascii) (s : string) :
  length (Py.split_char sep s) = 1%nat -> Py.split_char sep s = [s].
Proof.
  induction s as [|c s IH]; simpl; [reflexivity|].
  destruct (Ascii.eqb c sep).
  - pose proof (split_char_nonempty sep s).
    destruct (Py.split_char sep s); simpl; [congruence | discriminate].
  - destruct (Py.split_char sep s) as [|w ws] eqn:E;
      [now destruct (split_char_nonempty sep s)|].
    simpl. intros Hlen. destruct ws; [|discriminate].
    specialize (IH eq_refl). now inversion IH.
Qed.

Lemma getitem_last {X} (l : list X) :
  l <> [] -> exists x, Py.getitem l (-1) = Some x.
Proof.
  intros Hl. unfold Py.getitem.
  destruct l as [|x l]; [congruence|].
  replace ((0 <=? -1) && (-1 <? Z.of_nat (length (x :: l)))) with false
    by reflexivity.
  replace ((- Z.of_nat (length (x :: l)) <=? -1) && (-1 <? 0)) with true
    by (symmetry; apply andb_true_iff; split;
        [apply Z.leb_le; simpl length; lia | reflexivity]).
  apply lookup_lt_is_Some. simpl length. lia.
Qed.

Lemma mbind_mret_l {D X Y} (a : X) (k : X -> M D Y) (d : D) :
  mbind (mret a) k d = k a d.
Proof. unfold mbind, mret. cbn. now destruct (k a d) as [[t r] d']. Qed.

Lemma word_some {D} (words : list string) (i : Z) (w : string) :
  Py.getitem words i = Some w -> @word D words i = mret w.
Proof. intros H. unfold word. now rewrite H. Qed.

Ltac read_word w :=
  rewrite (word_some _ _ w) by reflexivity; rewrite mbind_mret_l.

(** After a verification command the completer is chosen by the number of
    words typed so far. *)
Lemma get_completions_verification {D} (daemon : Daemon D)
    (path_completions : string -> list Completion)
    (command : string) (rest : list string) (buffer : string) (d : D) :
  In command [ "start-verification"; "accept-verification";
               "confirm-verification"; "cancel-verification";
               "verify-device"; "unverify-device" ] ->
  Py.split_char " " buffer = command :: rest ->
  get_completions daemon path_completions buffer d
  = match rest with
    | [] => complete_commands command d
    | [w1] => complete_pan_users daemon w1 d
    | [pan_user; w2] => complete_users daemon w2 pan_user d
    | [pan_user; user_id; w3] => complete_devices daemon w3 pan_user user_id d
    | _ => (([], Returns []), d)
    end.
Proof.
  intros Hin Hsplit. unfold get_completions. rewrite Hsplit.
  assert (Hfamily : in_list command
            [ "start-verification"; "accept-verification";
              "confirm-verification"; "cancel-verification";
              "verify-device"; "unverify-device" ] = true).
  { simpl in Hin.
    repeat (destruct Hin as [<- | Hin]; [reflexivity|]). destruct Hin. }
  destruct rest as [|a [|b [|c [|e tl]]]].
  - read_word command. reflexivity.
  - read_word a. cbn [length Nat.eqb Nat.ltb Nat.leb].
    read_word command. rewrite Hfamily. reflexivity.
  - read_word b. cbn [length Nat.eqb Nat.ltb Nat.leb].
    read_word command. rewrite Hfamily.
    unfold complete_verification. cbn [length Nat.eqb].
    read_word a. reflexivity.
  - read_word c. cbn [length Nat.eqb Nat.ltb Nat.leb].
    read_word command. rewrite Hfamily.
    unfold complete_verification. cbn [length Nat.eqb].
    read_word a. read_word b. reflexivity.
  - destruct (getitem_last (command :: a :: b :: c :: e :: tl)
                ltac:(discriminate)) as [x Hx].
    rewrite (word_some _ _ x Hx), mbind_mret_l.
    cbn [length Nat.eqb Nat.ltb Nat.leb].
    read_word command. rewrite Hfamily. reflexivity.
Qed.

Section completer_facts.
Context {D : Type}.
Variable daemon : Daemon D.

Lemma complete_pan_users_answer (last_word : string)
    (users : list (string * string)) (d d' : D) :
  ctl_list_users daemon d = (inr users, d') ->
  complete_pan_users daemon last_word d
  = (([Call ListUsers],
      Returns (completions (filter_words (map fst users) last_word)
                           last_word)), d').
Proof.
  intros H. unfold complete_pan_users, mbind, call. now rewrite H.
Qed.

Lemma complete_devices_answer (last_word pan_user uid : string)
    (devices : list Device) (d d' : D) :
  devices_list_user_devices daemon (VStr pan_user) (VStr uid) d
  = (inr devices, d') ->
  complete_devices daemon last_word pan_user uid d
  = (([Call (ListUserDevices (VStr pan_user) (VStr uid))],
      Returns (completions (filter_words (map device_id devices) last_word)
                           last_word)), d').
Proof.
  intros H. unfold complete_devices, mbind, call. now rewrite H.
Qed.

(** The user ids pass through a set: each is offered once, in an order
    the set decides. *)
Lemma complete_users_answer (last_word pan_user : string)
    (devices : list Device) (d d' : D) :
  devices_list daemon pan_user d = (inr devices, d') ->
  exists cs,
    complete_users daemon last_word pan_user d
    = (([Call (DevicesList pan_user)], Returns cs), d')
    /\ List.NoDup cs
    /\ forall c,
        In c cs <->
        (exists device, In device devices /\ text c = user_id device)
        /\ Py.contains (text c) last_word = true
        /\ start_position c = - Py.len last_word.
Proof.
  intros H. eexists. split; [|split].
  - unfold complete_users, mbind, call. rewrite H. reflexivity.
  - unfold completions, filter_words.
    apply Finite.Injective_map_NoDup.
    + intros x y Hxy. now inversion Hxy.
    + apply List.NoDup_filter. apply NoDup_ListNoDup, NoDup_elements.
  - intros c. rewrite completions_spec. unfold filter_words.
    rewrite filter_In, <- list_elem_of_In, elem_of_elements,
      elem_of_list_to_set, list_elem_of_In, in_map_iff.
    split.
    + intros [[(device & Hid & Hdev) Hc] Hp]. repeat split; eauto.
    + intros [(device & Hdev & Hid) [Hc Hp]]. repeat split; eauto.
Qed.

End completer_facts.

(** C5.  After a verification command the completion is chosen by the
    index of the word under the cursor: word 1 is completed against the
    pan users the daemon lists, word 2 against the user ids of the devices
    it lists for the pan user typed as word 1, word 3 against the device
    ids it lists for the pan user and user id typed as words 1 and 2, and a
    later word has no candidates and causes no query.  Each query is made
    at completion time, and the candidates are the answers that contain the
    word under the cursor, each replacing that whole word. *)
Theorem verification_completion_by_word_index :
  forall (D : Type) (daemon : Daemon D)
         (path_completions : string -> list Completion)
         (command : string) (rest : list string) (buffer : string) (d : D),
    In command [ "start-verification"; "accept-verification";
                 "confirm-verification"; "cancel-verification";
                 "verify-device"; "unverify-device" ] ->
    Py.split_char " " buffer = command :: rest ->
    get_completions daemon path_completions buffer d
    = match rest with
      | [] => complete_commands command d
      | [w1] => complete_pan_users daemon w1 d
      | [pan_user; w2] => complete_users daemon w2 pan_user d
      | [pan_user; uid; w3] => complete_devices daemon w3 pan_user uid d
      | _ => (([], Returns []), d)
      end
    /\ (forall w1 users d',
          ctl_list_users daemon d = (inr users, d') ->
          complete_pan_users daemon w1 d
          = (([Call ListUsers],
              Returns (completions (filter_words (map fst users) w1) w1)),
             d'))
    /\ (forall w2 pan_user devices d',
          devices_list daemon pan_user d = (inr devices, d') ->
          exists cs,
            complete_users daemon w2 pan_user d
            = (([Call (DevicesList pan_user)], Returns cs), d')
            /\ List.NoDup cs
            /\ forall c,
                In c cs <->
                (exists device, In device devices /\ text c = user_id device)
                /\ Py.contains (text c) w2 = true
                /\ start_position c = - Py.len w2)
    /\ (forall w3 pan_user uid devices d',
          devices_list_user_devices daemon (VStr pan_user) (VStr uid) d
          = (inr devices, d') ->
          complete_devices daemon w3 pan_user uid d
          = (([Call (ListUserDevices (VStr pan_user) (VStr uid))],
              Returns (completions (filter_words (map device_id devices) w3)
                                   w3)),
             d')).
Proof.
  intros D daemon path_completions command rest buffer d Hin Hsplit.
  split; [now apply get_completions_verification|].
  split; [intros; now apply complete_pan_users_answer|].
  split; [intros; now apply complete_users_answer|].
  intros; now apply complete_devices_answer.
Qed.

Lemma verification_completion_witness :
  get_completions sample_daemon (fun _ => [])
    "verify-device @alice:example.org @bob:example.org GH" tt
  = (([Call (ListUserDevices (VStr "@alice:example.org")
                             (VStr "@bob:example.org"))],
      Returns [ {| text := "GHTYAJCE"; start_position := -2 |} ]), tt).
Proof.
  destruct (verification_completion_by_word_index unit sample_daemon
              (fun _ => []) "verify-device"
              ["@alice:example.org"; "@bob:example.org"; "GH"]
              "verify-device @alice:example.org @bob:example.org GH" tt)
    as (Hindex & _ & _ & Hdevices).
  - simpl. tauto.
  - reflexivity.
  - rewrite Hindex.
    apply (Hdevices "GH" "@alice:example.org" "@bob:example.org"
                    [sample_device] tt).
    reflexivity.
Defined.

(** C6.  With a single word before the cursor the candidates are the
    entries of [PanCtl.commands] that contain that word as a substring, in
    the order of the list, compared character for character; each
    candidate replaces the whole word (its start position is minus the
    length of the word).  ["users"] completes to ["list-users"] although it
    is no prefix of it, and ["LIST"] completes to nothing. *)
Theorem command_completion_by_substring :
  forall (D : Type) (daemon : Daemon D)
         (path_completions : string -> list Completion)
         (buffer : string) (d : D),
    length (Py.split_char " " buffer) = 1%nat ->
    get_completions daemon path_completions buffer d
    = (([],
        Returns
          (map (fun w => {| text := w; start_position := - Py.len buffer |})
               (List.filter (fun w => Py.contains w buffer) commands))),
       d)
    /\ (forall c,
          In c (map (fun w => {| text := w;
                                 start_position := - Py.len buffer |})
                    (List.filter (fun w => Py.contains w buffer) commands))
          <-> In (text c) commands
              /\ (exists pre post, text c = pre +:+ buffer +:+ post)
              /\ start_position c = - Py.len buffer)
    /\ filter_words commands "users" = ["list-users"]
    /\ filter_words commands "LIST" = [].
Proof.
  intros D daemon path_completions buffer d Hone.
  split; [|split; [|split; reflexivity]].
  - unfold get_completions.
    rewrite (split_char_single " " buffer Hone).
    read_word buffer. reflexivity.
  - intros c.
    change (In c (completions (filter_words commands buffer) buffer)
            <-> In (text c) commands
                /\ (exists pre post, text c = pre +:+ buffer +:+ post)
                /\ start_position c = - Py.len buffer).
    rewrite completions_spec, filter_words_spec. tauto.
Qed.

Lemma command_completion_witness :
  get_completions sample_daemon (fun _ => []) "users" tt
  = (([], Returns [ {| text := "list-users"; start_position := -5 |} ]), tt).
Proof.
  apply (command_completion_by_substring unit sample_daemon (fun _ => [])
           "users" tt).
  reflexivity.
Defined.

(** C10.  The completer counts ["cancel-verification"] among the
    verification commands: after it, the arguments are completed exactly
    as after each of the other five.  Yet the word is not in
    [PanCtl.commands], so it is never offered as a command, and the parser
    has no such subcommand: every line that starts with it is an invalid
    choice. *)
Theorem cancel_verification_completes_but_does_not_parse :
  Forall
    (fun command =>
       forall (D : Type) (daemon : Daemon D)
              (path_completions : string -> list Completion)
              (tail : string) (d : D),
         get_completions daemon path_completions
           ("cancel-verification" +:+ " " +:+ tail) d
         = get_completions daemon path_completions
             (command +:+ " " +:+ tail) d
         /\ get_completions daemon path_completions
              ("cancel-verification" +:+ " " +:+ tail) d
            = match Py.split_char " " tail with
              | [] => complete_commands "cancel-verification" d
              | [w1] => complete_pan_users daemon w1 d
              | [pan_user; w2] => complete_users daemon w2 pan_user d
              | [pan_user; uid; w3] =>
                  complete_devices daemon w3 pan_user uid d
              | _ => (([], Returns []), d)
              end)
    [ "start-verification"; "accept-verification"; "confirm-verification";
      "verify-device"; "unverify-device" ]
  /\ ~ In "cancel-verification" commands
  /\ (forall buffer,
        ~ In "cancel-verification" (filter_words commands buffer))
  /\ name_parser_map !! "cancel-verification" = None
  /\ (forall rest : list string,
        parse_args ("cancel-verification" :: rest)
        = ([Write Stdout (ErrorLine (InvalidChoice "cancel-verification"))],
           Raises ParseError)).
Proof.
  assert (Hnot : ~ In "cancel-verification" commands).
  { simpl. intros H.
    repeat (destruct H as [H | H]; [discriminate|]). exact H. }
  split; [|split; [exact Hnot|split; [|split]]].
  - assert (Hcancel : forall (D : Type) (daemon : Daemon D)
              (path_completions : string -> list Completion)
              (command tail : string) (d : D),
              In command [ "start-verification"; "accept-verification";
                           "confirm-verification"; "cancel-verification";
                           "verify-device"; "unverify-device" ] ->
              Py.split_char " " (command +:+ " " +:+ tail)
              = command :: Py.split_char " " tail ->
              get_completions daemon path_completions
                (command +:+ " " +:+ tail) d
              = match Py.split_char " " tail with
                | [] => complete_commands "cancel-verification" d
                | [w1] => complete_pan_users daemon w1 d
                | [pan_user; w2] => complete_users daemon w2 pan_user d
                | [pan_user; uid; w3] =>
                    complete_devices daemon w3 pan_user uid d
                | _ => (([], Returns []), d)
                end).
    { intros D daemon path_completions command tail d Hin Hsplit.
      rewrite (get_completions_verification daemon path_completions command
                 (Py.split_char " " tail) _ d Hin Hsplit).
      pose proof (split_char_nonempty " " tail) as Hne.
      now destruct (Py.split_char " " tail). }
    repeat apply List.Forall_cons; try apply List.Forall_nil;
      intros D daemon path_completions tail d;
      rewrite !Hcancel by (first [reflexivity | simpl; tauto]);
      split; reflexivity.
  - intros buffer H. apply filter_words_spec in H as [H _]. now apply Hnot.
  - reflexivity.
  - intros rest. apply parse_args_unknown; reflexivity.
Qed.

(** * Further properties *)

(** ** What the parser prints *)

Lemma framed_ret {X} (b : bool) (a : X) : framed b (ret a).
Proof. reflexivity. Qed.

Lemma framed_error {X} (b : bool) (m : message) : framed b (@error X m).
Proof. simpl. now exists m. Qed.

Lemma framed_bind {X Y} (b : bool) (m : W X) (k : X -> W Y) :
  framed b m -> (forall a, framed b (k a)) -> framed b (bind m k).
Proof.
  intros Hm Hk. destruct m as [t [a| e |]]; simpl in *; try assumption.
  subst t. specialize (Hk a). now destruct (k a) as [t' r].
Qed.

Lemma framed_weaken {X} (w : W X) : framed false w -> framed true w.
Proof.
  destruct w as [t [a| e |]]; simpl; try tauto.
  destruct e; simpl; tauto.
Qed.

Lemma framed_try_argument_error {X} (m : W X) :
  framed true m -> framed false (try_except m on_argument_error).
Proof.
  destruct m as [t [a| e |]]; simpl; try tauto.
  destruct e; simpl; try tauto.
  intros [_ ->]. simpl. eauto.
Qed.

Create HintDb framed.
#[local] Hint Resolve framed_ret framed_error framed_bind : framed.

Lemma framed_classify (b : bool) (args : list string) :
  framed b (Argparse.classify args).
Proof.
  induction args as [|a args IH]; simpl; auto with framed.
  destruct (String.eqb a "--"); [reflexivity|].
  destruct (Argparse.parse_optional a); auto with framed.
Qed.

Section framed_parser.
Variable prog : option string.
Variable parser_positionals : list Argparse.positional.
Variable take_positional :
  Argparse.positional -> list string -> Namespace -> W Namespace.
Hypothesis framed_take_positional :
  forall p args ns, framed true (take_positional p args ns).

Lemma framed_take_positionals arg_strings actions :
  forall arg_counts start_index ns,
    framed true (Argparse.take_positionals take_positional arg_strings
                   actions arg_counts start_index ns).
Proof.
  induction actions as [|action actions IH];
    intros [|c arg_counts] start_index ns; simpl; auto with framed.
Qed.

Lemma framed_consume_positionals arg_strings pattern start_index st :
  framed true (Argparse.consume_positionals take_positional arg_strings
                 pattern start_index st).
Proof.
  unfold Argparse.consume_positionals.
  apply framed_bind; [apply framed_take_positionals|].
  intros [ns i]. reflexivity.
Qed.

Lemma framed_explicit_tuples explicit_arg :
  forall a option_string action_tuples,
    framed true (Argparse.explicit_tuples a option_string explicit_arg
                   action_tuples).
Proof.
  induction explicit_arg as [|c e IH]; intros a option_string action_tuples;
    cbn [Argparse.explicit_tuples]; cbv zeta;
    repeat match goal with
           | |- framed _ (if ?b then _ else _) => destruct b
           | |- framed _ (match ?x with _ => _ end) => destruct x
           end; first [apply IH | now simpl].
Qed.

Lemma framed_take_optionals action_tuples :
  framed true (Argparse.take_optionals prog action_tuples).
Proof.
  destruct action_tuples as [|[[] s] l]; simpl; [reflexivity|].
  split; [reflexivity | now exists prog].
Qed.

Lemma framed_consume_optional arg_strings pattern start_index st :
  framed true (Argparse.consume_optional prog arg_strings pattern
                 start_index st).
Proof.
  unfold Argparse.consume_optional.
  destruct (pattern !! start_index) as [[|[[[a|] option_string] e]|]|];
    try reflexivity.
  apply framed_bind.
  - destruct e; [apply framed_explicit_tuples | reflexivity].
  - intros l. apply framed_bind; [apply framed_take_optionals|].
    intros _. reflexivity.
Qed.

Lemma framed_consume_loop arg_strings pattern fuel :
  forall start_index st,
    framed true (Argparse.consume_loop prog take_positional arg_strings
                   pattern fuel start_index st).
Proof.
  induction fuel as [|fuel IH]; intros start_index st; simpl;
    destruct (Argparse.next_option _) as [k|]; try reflexivity.
  assert (Hat : forall st i,
    framed true
      (let '(st0, start_index0) :=
         if (i =? start_index + k)%nat then (st, i)
         else (Argparse.State (Argparse.positionals st)
                 (Argparse.namespace st)
                 (Argparse.extras st ++
                  take (start_index + k - i) (drop i arg_strings)),
               (start_index + k)%nat) in
       r <- Argparse.consume_optional prog arg_strings pattern
              start_index0 st0 ;;
       let '(st1, start_index1) := r in
       Argparse.consume_loop prog take_positional arg_strings pattern
         fuel start_index1 st1)).
  { intros st0 i. destruct (i =? start_index + k)%nat;
      (apply framed_bind; [apply framed_consume_optional|]);
      intros [st1 i1]; apply IH. }
  destruct (start_index =? start_index + k)%nat eqn:E.
  - specialize (Hat st start_index). rewrite E in Hat. exact Hat.
  - apply framed_bind; [apply framed_consume_positionals|].
    intros [st' stop]. destruct (start_index <? stop)%nat; [apply IH|].
    apply Hat.
Qed.

Lemma framed_parse_known_args args :
  framed false (Argparse.parse_known_args prog parser_positionals
                  take_positional args).
Proof.
  unfold Argparse.parse_known_args.
  apply framed_bind.
  - apply framed_try_argument_error.
    apply framed_bind; [apply framed_classify|]. intros pattern.
    unfold Argparse.parse_classified.
    apply framed_bind; [apply framed_consume_loop|]. intros [st i].
    apply framed_bind; [apply framed_consume_positionals|]. intros [st' j].
    destruct (Argparse.required_actions _); auto with framed.
  - intros [ns rest].
    destruct (getattr ns _) as [[| |]|]; reflexivity.
Qed.

End framed_parser.

Lemma framed_take_in_subparser p args ns :
  framed true (take_in_subparser p args ns).
Proof. destruct p; reflexivity. Qed.

Lemma framed_take_in_parser p args ns :
  framed true (take_in_parser p args ns).
Proof.
  destruct p as [dest|dest]; simpl; [|reflexivity].
  unfold take_subparsers.
  destruct args as [|parser_name arg_strings]; [reflexivity|].
  destruct (name_parser_map !! parser_name) as [arguments|];
    [|split; reflexivity].
  apply framed_bind.
  - apply framed_weaken, framed_parse_known_args.
    apply framed_take_in_subparser.
  - intros [subnamespace rest]. destruct rest; reflexivity.
Qed.

Lemma framed_parse_args (argv : list string) : framed false (parse_args argv).
Proof.
  unfold parse_args.
  apply framed_bind.
  - apply framed_parse_known_args. apply framed_take_in_parser.
  - intros [args rest]. destruct rest; auto with framed.
Qed.


(** ** Lines at the prompt *)

Lemma handle_line_of_parse {D} (daemon : Daemon D) (d : D)
    (result : string) (argv : list string) (ns : Namespace) :
  result <> "" ->
  Py.split_ws result = argv ->
  parse_args argv = ([], Returns ns) ->
  handle_line daemon result d = dispatch daemon ns d.
Proof.
  intros Hne Hsplit Hparse.
  apply handle_line_parsed; [exact Hne|].
  now rewrite Hsplit, Hparse.
Qed.

Lemma loop_after_line {D} (daemon : Daemon D) (d d' : D) (result : string)
    (t : list event) (inputs : list prompt_result) :
  handle_line daemon result d = ((t, Returns tt), d') ->
  loop daemon (Line result :: inputs) d
  = after daemon (ShowPrompt :: t) inputs d'.
Proof. intros H. now rewrite loop_line, H. Qed.

Lemma loop_raises_in_line {D} (daemon : Daemon D) (d d' : D) (result : string)
    (t : list event) (e : exn) (inputs : list prompt_result) :
  handle_line daemon result d = ((t, Raises e), d') ->
  loop daemon (Line result :: inputs) d = ((ShowPrompt :: t, Raises e), d').
Proof. intros H. now rewrite loop_line, H. Qed.

(** X2.  A line whose first word is positional for the parser (for
    instance, does not begin with a dash) and names none of the registered
    commands is reported as an invalid choice, whatever follows the word,
    and the loop shows the next prompt and goes on with the remaining
    input; the daemon is not contacted. *)
Theorem unknown_command_keeps_the_loop :
  forall (D : Type) (daemon : Daemon D) (d : D) (result v : string)
         (rest : list string) (inputs : list prompt_result),
    Py.split_ws result = v :: rest ->
    is_positional_word v = true ->
    name_parser_map !! v = None ->
    parse_args (v :: rest)
    = ([Write Stdout (ErrorLine (InvalidChoice v))], Raises ParseError)
    /\ handle_line daemon result d
       = (([Write Stdout (ErrorLine (InvalidChoice v))], Returns tt), d)
    /\ loop daemon (Line result :: inputs) d
       = after daemon [ShowPrompt; Write Stdout (ErrorLine (InvalidChoice v))]
               inputs d.
Proof.
  intros D daemon d result v rest inputs Hsplit Hv Hnone.
  assert (Hparse : parse_args (v :: rest)
            = ([Write Stdout (ErrorLine (InvalidChoice v))], Raises ParseError))
    by now apply parse_args_unknown.
  assert (Hline : handle_line daemon result d
            = (([Write Stdout (ErrorLine (InvalidChoice v))], Returns tt), d)).
  { apply handle_line_parse_error.
    - eapply split_ws_nonempty; eauto.
    - now rewrite Hsplit. }
  repeat split; try assumption.
  now apply loop_after_line.
Qed.

Lemma unknown_command_witness :
  loop sample_daemon [Line "help me -h"] tt
  = after sample_daemon
          [ShowPrompt; Write Stdout (ErrorLine (InvalidChoice "help"))] [] tt.
Proof.
  apply (unknown_command_keeps_the_loop unit sample_daemon tt "help me -h"
           "help" ["me"; "-h"] []); reflexivity.
Defined.

Lemma split_ws_blank (s : string) :
  forallb Py.isspace (list_ascii_of_string s) = true ->
  Py.split_ws s = [].
Proof.
  unfold Py.split_ws.
  induction s as [|c s IH]; simpl; [reflexivity|].
  intros H. apply andb_true_iff in H as [Hc Hs].
  rewrite Hc. now apply IH.
Qed.

(** X3.  A line made of whitespace only is not a parse failure: the
    [if not result] guard lets it through, [split()] yields no word, the
    parser accepts the empty argument list with no subcommand, and nothing
    is dispatched.  Nothing is printed, the daemon is not contacted, and
    the loop goes on. *)
Theorem blank_line_is_ignored :
  forall (D : Type) (daemon : Daemon D) (d : D) (result : string)
         (inputs : list prompt_result),
    forallb Py.isspace (list_ascii_of_string result) = true ->
    parse_args (Py.split_ws result) = ([], Returns [("subcommand", VNone)])
    /\ handle_line daemon result d = (([], Returns tt), d)
    /\ loop daemon (Line result :: inputs) d
       = after daemon [ShowPrompt] inputs d.
Proof.
  intros D daemon d result inputs Hblank.
  pose proof (split_ws_blank result Hblank) as Hsplit.
  assert (Hparse : parse_args (Py.split_ws result)
                   = ([], Returns [("subcommand", VNone)]))
    by now rewrite Hsplit.
  assert (Hline : handle_line daemon result d = (([], Returns tt), d)).
  { destruct (String.eqb_spec result "") as [->|Hne]; [reflexivity|].
    now rewrite (handle_line_of_parse daemon d result []
                   [("subcommand", VNone)] Hne Hsplit). }
  repeat split; try assumption.
  now apply loop_after_line.
Qed.

Lemma blank_line_witness :
  loop sample_daemon [Line "   "] tt = after sample_daemon [ShowPrompt] [] tt.
Proof.
  apply (blank_line_is_ignored unit sample_daemon tt "   " []). reflexivity.
Defined.

(** The exact-arity case of the parser, for any registered verb. *)
Lemma parse_args_exact (verb : string) (arguments ws : list string) :
  name_parser_map !! verb = Some arguments ->
  Forall (fun w => is_positional_word w = true) ws ->
  length ws = length arguments ->
  parse_args (verb :: ws)
  = ([], Returns (("subcommand", VStr verb) :: zip arguments (map VStr ws))).
Proof.
  intros Hlook Hws Hlen.
  assert (H : is_positional_word verb = true
              /\ In arguments [ []; ["pan_user"; "user_id"];
                                ["pan_user"; "user_id"; "device_id"];
                                ["pan_user"; "path"; "passphrase"] ]).
  { pose proof (name_parser_map_lookup verb arguments Hlook) as Hin.
    simpl in Hin.
    repeat (destruct Hin as [Hin | Hin];
            [inversion Hin; subst; split; [reflexivity | simpl; tauto]|]).
    destruct Hin. }
  destruct H as [Hverb Hin].
  now apply (parse_args_arity verb arguments ws Hverb Hlook Hin Hws).
Qed.

(** X4.  [start-verification] and [verify-device] are parsed but have no
    branch in the dispatch chain of [loop]: a well-formed line with either
    verb contacts no daemon, prints nothing and leaves the loop at the next
    prompt. *)
Theorem unhandled_verbs_are_ignored :
  forall (D : Type) (daemon : Daemon D) (d : D) (result verb a b c : string)
         (inputs : list prompt_result),
    In verb ["start-verification"; "verify-device"] ->
    Py.split_ws result = [verb; a; b; c] ->
    Forall (fun w => is_positional_word w = true) [a; b; c] ->
    parse_args [verb; a; b; c]
    = ([], Returns [("subcommand", VStr verb); ("pan_user", VStr a);
                    ("user_id", VStr b); ("device_id", VStr c)])
    /\ handle_line daemon result d = (([], Returns tt), d)
    /\ loop daemon (Line result :: inputs) d
       = after daemon [ShowPrompt] inputs d.
Proof.
  intros D daemon d result verb a b c inputs Hverb Hsplit Hws.
  assert (Hparse : parse_args [verb; a; b; c]
    = ([], Returns [("subcommand", VStr verb); ("pan_user", VStr a);
                    ("user_id", VStr b); ("device_id", VStr c)])).
  { simpl in Hverb. destruct Hverb as [<- | [<- | []]];
      now apply (parse_args_exact _ ["pan_user"; "user_id"; "device_id"]). }
  assert (Hline : handle_line daemon result d = (([], Returns tt), d)).
  { rewrite (handle_line_of_parse daemon d result _ _
               (split_ws_nonempty _ _ _ Hsplit) Hsplit Hparse).
    simpl in Hverb. destruct Hverb as [<- | [<- | []]]; reflexivity. }
  repeat split; try assumption.
  now apply loop_after_line.
Qed.

Lemma unhandled_verbs_witness :
  loop sample_daemon
       [Line "verify-device @alice:example.org @bob:example.org GHTYAJCE"] tt
  = after sample_daemon [ShowPrompt] [] tt.
Proof.
  apply (unhandled_verbs_are_ignored unit sample_daemon tt
           "verify-device @alice:example.org @bob:example.org GHTYAJCE"
           "verify-device" "@alice:example.org" "@bob:example.org" "GHTYAJCE"
           []).
  - simpl. tauto.
  - reflexivity.
  - repeat constructor.
Defined.

(** X5.  A well-formed [confirm-verification] line makes exactly one
    remote call, [confirm_sas] with the three words in the order typed,
    and prints nothing.  If the call raises, the exception is not caught:
    it leaves [loop], and the remaining input is never read. *)
Theorem confirm_verification_calls_confirm_sas :
  forall (D : Type) (daemon : Daemon D) (d : D) (result a b c : string)
         (inputs : list prompt_result),
    Py.split_ws result = ["confirm-verification"; a; b; c] ->
    Forall (fun w => is_positional_word w = true) [a; b; c] ->
    handle_line daemon result d
    = match devices_confirm_sas daemon (VStr a) (VStr b) (VStr c) d with
      | (inr _, d') =>
          (([Call (ConfirmSas (VStr a) (VStr b) (VStr c))], Returns tt), d')
      | (inl e, d') =>
          (([Call (ConfirmSas (VStr a) (VStr b) (VStr c))], Raises e), d')
      end
    /\ forall e d',
        devices_confirm_sas daemon (VStr a) (VStr b) (VStr c) d = (inl e, d') ->
        loop daemon (Line result :: inputs) d
        = (([ShowPrompt; Call (ConfirmSas (VStr a) (VStr b) (VStr c))],
            Raises e), d').
Proof.
  intros D daemon d result a b c inputs Hsplit Hws.
  assert (Hline : handle_line daemon result d
    = match devices_confirm_sas daemon (VStr a) (VStr b) (VStr c) d with
      | (inr _, d') =>
          (([Call (ConfirmSas (VStr a) (VStr b) (VStr c))], Returns tt), d')
      | (inl e, d') =>
          (([Call (ConfirmSas (VStr a) (VStr b) (VStr c))], Raises e), d')
      end).
  { rewrite (handle_line_of_parse daemon d result _ _
               (split_ws_nonempty _ _ _ Hsplit) Hsplit
               (parse_args_exact "confirm-verification"
                  ["pan_user"; "user_id"; "device_id"] [a; b; c]
                  eq_refl Hws eq_refl)).
    unfold dispatch, confirm_sas, attr, mbind, call. cbn.
    now destruct (devices_confirm_sas daemon (VStr a) (VStr b) (VStr c) d)
      as [[e|[]] d']. }
  split; [exact Hline|].
  intros e d' Hfail. apply loop_raises_in_line. now rewrite Hline, Hfail.
Qed.

Lemma confirm_verification_witness :
  handle_line sample_daemon
    "confirm-verification @alice:example.org @bob:example.org GHTYAJCE" tt
  = (([Call (ConfirmSas (VStr "@alice:example.org") (VStr "@bob:example.org")
                        (VStr "GHTYAJCE"))], Returns tt), tt).
Proof.
  apply (confirm_verification_calls_confirm_sas unit sample_daemon tt
           "confirm-verification @alice:example.org @bob:example.org GHTYAJCE"
           "@alice:example.org" "@bob:example.org" "GHTYAJCE" []).
  - reflexivity.
  - repeat constructor.
Defined.

(** X6.  A well-formed [import-keys] or [export-keys] line makes exactly
    one remote call, [import_keys] or [export_keys] on the control
    interface, passing the pan user, the path and the passphrase in the
    order typed; nothing is printed, also not the passphrase.  A failing
    call raises out of the line. *)
Theorem key_commands_pass_their_words_in_order :
  forall (D : Type) (daemon : Daemon D) (d : D)
         (result pan_user path passphrase : string),
    Forall (fun w => is_positional_word w = true)
           [pan_user; path; passphrase] ->
    (Py.split_ws result = ["import-keys"; pan_user; path; passphrase] ->
     handle_line daemon result d
     = match ctl_import_keys daemon (VStr pan_user) (VStr path)
                             (VStr passphrase) d with
       | (inr _, d') =>
           (([Call (ImportKeys (VStr pan_user) (VStr path) (VStr passphrase))],
             Returns tt), d')
       | (inl e, d') =>
           (([Call (ImportKeys (VStr pan_user) (VStr path) (VStr passphrase))],
             Raises e), d')
       end)
    /\ (Py.split_ws result = ["export-keys"; pan_user; path; passphrase] ->
        handle_line daemon result d
        = match ctl_export_keys daemon (VStr pan_user) (VStr path)
                                (VStr passphrase) d with
          | (inr _, d') =>
              (([Call (ExportKeys (VStr pan_user) (VStr path)
                                  (VStr passphrase))],
                Returns tt), d')
          | (inl e, d') =>
              (([Call (ExportKeys (VStr pan_user) (VStr path)
                                  (VStr passphrase))],
                Raises e), d')
          end).
Proof.
  intros D daemon d result pan_user path passphrase Hws.
  split; intros Hsplit.
  - rewrite (handle_line_of_parse daemon d result _ _
               (split_ws_nonempty _ _ _ Hsplit) Hsplit
               (parse_args_exact "import-keys"
                  ["pan_user"; "path"; "passphrase"]
                  [pan_user; path; passphrase] eq_refl Hws eq_refl)).
    unfold dispatch, import_keys, attr, mbind, call. cbn.
    now destruct (ctl_import_keys daemon (VStr pan_user) (VStr path)
                    (VStr passphrase) d) as [[e|[]] d'].
  - rewrite (handle_line_of_parse daemon d result _ _
               (split_ws_nonempty _ _ _ Hsplit) Hsplit
               (parse_args_exact "export-keys"
                  ["pan_user"; "path"; "passphrase"]
                  [pan_user; path; passphrase] eq_refl Hws eq_refl)).
    unfold dispatch, export_keys, attr, mbind, call. cbn.
    now destruct (ctl_export_keys daemon (VStr pan_user) (VStr path)
                    (VStr passphrase) d) as [[e|[]] d'].
Qed.

Lemma key_commands_witness :
  handle_line sample_daemon
    "export-keys @alice:example.org /tmp/keys.txt secret" tt
  = (([Call (ExportKeys (VStr "@alice:example.org") (VStr "/tmp/keys.txt")
                        (VStr "secret"))], Returns tt), tt).
Proof.
  destruct (key_commands_pass_their_words_in_order unit sample_daemon tt
              "export-keys @alice:example.org /tmp/keys.txt secret"
              "@alice:example.org" "/tmp/keys.txt" "secret")
    as [_ Hexport].
  - repeat constructor.
  - now apply Hexport.
Defined.

Lemma for_each_events {D X} (f : X -> event) (body : X -> M D unit)
    (l : list X) (d : D) :
  (forall x d, body x d = (([f x], Returns tt), d)) ->
  for_each l body d = ((map f l, Returns tt), d).
Proof.
  intros Hbody. induction l as [|x l IH]; [reflexivity|].
  cbn [for_each]. unfold mbind. now rewrite Hbody, IH.
Qed.

(** X7.  [list-users] makes one remote call and prints the heading
    followed by one line per (user, device) pair of the answer, in the
    answer's order, each as two spaces, the user, a space and the device;
    with no users only the heading is printed.  A failing call raises
    before anything is printed. *)
Theorem list_users_prints_one_line_per_user :
  forall (D : Type) (daemon : Daemon D) (d : D) (result : string),
    Py.split_ws result = ["list-users"] ->
    handle_line daemon result d
    = match ctl_list_users daemon d with
      | (inr users, d') =>
          ((Call ListUsers
              :: Write Stdout (Text "pantalaimon users:")
              :: map (fun '(user, device) =>
                        Write Stdout
                          (Text (" " +:+ " " +:+ user +:+ " " +:+ device)))
                     users,
            Returns tt), d')
      | (inl e, d') => (([Call ListUsers], Raises e), d')
      end.
Proof.
  intros D daemon d result Hsplit.
  rewrite (handle_line_of_parse daemon d result _
             [("subcommand", VStr "list-users")]
             (split_ws_nonempty _ _ _ Hsplit) Hsplit eq_refl).
  unfold dispatch, list_users, attr, mbind at 1 2, call. cbn.
  destruct (ctl_list_users daemon d) as [[e|users] d']; [reflexivity|].
  rewrite (for_each_events
             (fun '(user, device) =>
                Write Stdout (Text (" " +:+ " " +:+ user +:+ " " +:+ device)))
             _ users d'); [reflexivity|].
  now intros [user device] d0.
Qed.

Lemma list_users_witness :
  handle_line sample_daemon "list-users" tt
  = (([Call ListUsers; Write Stdout (Text "pantalaimon users:");
       Write Stdout (Text "  @alice:example.org PANDEVICE")], Returns tt), tt).
Proof.
  apply (list_users_prints_one_line_per_user unit sample_daemon tt
           "list-users").
  reflexivity.
Defined.

Lemma get_color_some (s : string) :
  exists color,
    get_color s = Some color
    /\ In color ["ansiblue"; "ansigreen"; "ansired"; "ansiyellow"; "ansicyan"].
Proof.
  destruct (get_color_codes_index (map Py.ord (list_ascii_of_string s)))
    as (i & Hi & _ & Hc).
  change (get_color_codes (map Py.ord (list_ascii_of_string s)))
    with (get_color s) in Hc.
  rewrite Hc.
  destruct i as [|[|[|[|[|i]]]]]; [| | | | |lia];
    eexists; (split; [reflexivity | simpl; tauto]).
Qed.



(** ** How a session ends *)

Lemma loop_interrupt_or_end {D} (daemon : Daemon D)
    (rest rest' : list prompt_result) (pre : list prompt_result) :
  forall d : D,
    exists t o1 o2 d',
      loop daemon (pre ++ Interrupt :: rest) d = ((t, o1), d')
      /\ loop daemon (pre ++ EndOfInput :: rest') d = ((t, o2), d')
      /\ (o1 = o2 \/ (o1 = Raises KeyboardInterrupt /\ o2 = Returns tt)).
Proof.
  induction pre as [|x pre IH]; intros d.
  - exists [ShowPrompt], (Raises KeyboardInterrupt), (Returns tt), d.
    repeat split; auto.
  - destruct x as [result| |].
    + cbn [app]. rewrite !loop_line.
      destruct (handle_line daemon result d) as [[t [[]| e |]] d0].
      * destruct (IH d0) as (t' & o1 & o2 & d' & H1 & H2 & Ho).
        unfold after. rewrite H1, H2.
        exists (ShowPrompt :: t ++ t'), o1, o2, d'. auto.
      * exists (ShowPrompt :: t), (Raises e), (Raises e), d0. auto.
      * exists (ShowPrompt :: t), OutOfFuel, OutOfFuel, d0. auto.
    + exists [ShowPrompt], (Returns tt), (Returns tt), d. auto.
    + exists [ShowPrompt], (Raises KeyboardInterrupt),
        (Raises KeyboardInterrupt), d. auto.
Qed.

(** X9.  An interrupt at a prompt ends the program exactly like the end
    of the input at that prompt: [main] catches the [KeyboardInterrupt], so
    after the same earlier lines both sessions leave the same trace and the
    same result, and what would have been typed afterwards is never read.
    Ending at the first prompt gives exit status 0 with only the prompt
    shown. *)
Theorem interrupt_ends_like_end_of_input :
  forall (D : Type) (daemon : Daemon D) (d : D)
         (pre rest rest' : list prompt_result),
    main daemon (inr d) (pre ++ Interrupt :: rest)
    = main daemon (inr d) (pre ++ EndOfInput :: rest')
    /\ main daemon (inr d) (Interrupt :: rest) = ([ShowPrompt], Returns tt)
    /\ exit_status (main daemon (inr d) (Interrupt :: rest)) = Some 0
    /\ exit_status (main daemon (inr d) (EndOfInput :: rest)) = Some 0.
Proof.
  intros D daemon d pre rest rest'.
  split; [|repeat split; reflexivity].
  destruct (loop_interrupt_or_end daemon rest rest' pre d)
    as (t & o1 & o2 & d' & H1 & H2 & [<- | [-> ->]]).
  - unfold main. now rewrite H1, H2.
  - unfold main. rewrite H1, H2. cbn. now rewrite app_nil_r.
Qed.

(** ** More of the completer *)

Lemma in_list_false (x : string) (l : list string) :
  ~ In x l -> in_list x l = false.
Proof.
  intros H. unfold in_list. apply not_true_is_false. intros Hex.
  apply existsb_exists in Hex as (y & Hy & Heq).
  apply String.eqb_eq in Heq. now subst.
Qed.

(** X10.  After [export-keys] or [import-keys] the completion is chosen by
    the index of the word under the cursor: word 1 is completed against
    the pan users of the daemon, word 2 is handed to the path completer
    with no daemon query, and a later word (the passphrase) has no
    candidates and causes no query. *)
Theorem key_file_completion_by_word_index :
  forall (D : Type) (daemon : Daemon D)
         (path_completions : string -> list Completion)
         (command : string) (rest : list string) (buffer : string) (d : D),
    In command ["export-keys"; "import-keys"] ->
    Py.split_char " " buffer = command :: rest ->
    get_completions daemon path_completions buffer d
    = match rest with
      | [] => complete_commands command d
      | [w1] => complete_pan_users daemon w1 d
      | [_; w2] => (([], Returns (path_completions w2)), d)
      | _ => (([], Returns []), d)
      end.
Proof.
  intros D daemon path_completions command rest buffer d Hin Hsplit.
  unfold get_completions. rewrite Hsplit.
  assert (Hclass :
    in_list command [ "start-verification"; "accept-verification";
                      "confirm-verification"; "cancel-verification";
                      "verify-device"; "unverify-device" ] = false
    /\ in_list command ["export-keys"; "import-keys"] = true).
  { simpl in Hin. destruct Hin as [<- | [<- | []]]; split; reflexivity. }
  destruct Hclass as [Hv Hk].
  destruct rest as [|a [|b [|c tl]]].
  - read_word command. reflexivity.
  - read_word a. cbn [length Nat.eqb Nat.ltb Nat.leb].
    read_word command. rewrite Hv, Hk. reflexivity.
  - read_word b. cbn [length Nat.eqb Nat.ltb Nat.leb].
    read_word command. rewrite Hv, Hk. reflexivity.
  - destruct (getitem_last (command :: a :: b :: c :: tl)
                ltac:(discriminate)) as [x Hx].
    rewrite (word_some _ _ x Hx), mbind_mret_l.
    cbn [length Nat.eqb Nat.ltb Nat.leb].
    read_word command. rewrite Hv, Hk. reflexivity.
Qed.

Lemma key_file_completion_witness :
  get_completions sample_daemon
    (fun w => [ {| text := w +:+ "keys.txt"; start_position := 0 |} ])
    "export-keys @alice:example.org /tmp/" tt
  = (([], Returns [ {| text := "/tmp/keys.txt"; start_position := 0 |} ]), tt).
Proof.
  rewrite (key_file_completion_by_word_index unit sample_daemon _
             "export-keys" ["@alice:example.org"; "/tmp/"]
             "export-keys @alice:example.org /tmp/" tt).
  - reflexivity.
  - simpl. tauto.
  - reflexivity.
Defined.

(** X11.  After [list-devices], word 1 is completed against the pan users
    of the daemon and word 2 against the user ids of the devices the
    daemon lists for the pan user typed as word 1; a later word has no
    candidates and causes no query. *)
Theorem list_devices_completion_by_word_index :
  forall (D : Type) (daemon : Daemon D)
         (path_completions : string -> list Completion)
         (rest : list string) (buffer : string) (d : D),
    Py.split_char " " buffer = "list-devices" :: rest ->
    get_completions daemon path_completions buffer d
    = match rest with
      | [] => complete_commands "list-devices" d
      | [w1] => complete_pan_users daemon w1 d
      | [pan_user; w2] => complete_users daemon w2 pan_user d
      | _ => (([], Returns []), d)
      end.
Proof.
  intros D daemon path_completions rest buffer d Hsplit.
  unfold get_completions. rewrite Hsplit.
  destruct rest as [|a [|b [|c tl]]].
  - read_word "list-devices". reflexivity.
  - read_word a. cbn [length Nat.eqb Nat.ltb Nat.leb].
    read_word "list-devices". reflexivity.
  - read_word b. cbn [length Nat.eqb Nat.ltb Nat.leb].
    read_word "list-devices".
    change (in_list "list-devices"
              [ "start-verification"; "accept-verification";
                "confirm-verification"; "cancel-verification";
                "verify-device"; "unverify-device" ]) with false.
    change (in_list "list-devices" ["export-keys"; "import-keys"]) with false.
    change (String.eqb "list-devices" "list-devices") with true.
    cbv iota. unfold complete_list_devices. cbn [length Nat.eqb].
    read_word a. reflexivity.
  - destruct (getitem_last ("list-devices" :: a :: b :: c :: tl)
                ltac:(discriminate)) as [x Hx].
    rewrite (word_some _ _ x Hx), mbind_mret_l. reflexivity.
Qed.

Lemma list_devices_completion_witness :
  get_completions sample_daemon (fun _ => [])
    "list-devices @alice:example.org @b" tt
  = (([Call (DevicesList "@alice:example.org")],
      Returns [ {| text := "@bob:example.org"; start_position := -2 |} ]), tt).
Proof.
  rewrite (list_devices_completion_by_word_index unit sample_daemon
             (fun _ => []) ["@alice:example.org"; "@b"]
             "list-devices @alice:example.org @b" tt eq_refl).
  reflexivity.
Defined.

(** X12.  After a first word that is none of the nine words the completer
    knows (so also after [list-users], which takes no argument, and after
    any mistyped command) no candidate is offered for a later word and the
    daemon is not queried. *)
Theorem no_completion_after_other_commands :
  forall (D : Type) (daemon : Daemon D)
         (path_completions : string -> list Completion)
         (command w : string) (rest : list string) (buffer : string) (d : D),
    ~ In command [ "start-verification"; "accept-verification";
                   "confirm-verification"; "cancel-verification";
                   "verify-device"; "unverify-device";
                   "export-keys"; "import-keys"; "list-devices" ] ->
    Py.split_char " " buffer = command :: w :: rest ->
    get_completions daemon path_completions buffer d = (([], Returns []), d).
Proof.
  intros D daemon path_completions command w rest buffer d Hnot Hsplit.
  unfold get_completions. rewrite Hsplit.
  destruct (getitem_last (command :: w :: rest) ltac:(discriminate))
    as [x Hx].
  rewrite (word_some _ _ x Hx), mbind_mret_l.
  cbn [length Nat.eqb Nat.ltb Nat.leb].
  read_word command.
  rewrite !in_list_false by (simpl in *; tauto).
  destruct (String.eqb_spec command "list-devices") as [->|_];
    [simpl in Hnot; tauto | reflexivity].
Qed.

Lemma no_completion_witness :
  get_completions sample_daemon (fun _ => []) "list-users @al" tt
  = (([], Returns []), tt).
Proof.
  apply (no_completion_after_other_commands unit sample_daemon (fun _ => [])
           "list-users" "@al" [] "list-users @al" tt).
  - simpl. intros H.
    repeat (destruct H as [H | H]; [discriminate|]). exact H.
  - reflexivity.
Defined.

(** X13.  A completion query that fails is not turned into an empty
    candidate list: after a verification command, when the remote call
    made for the word under the cursor raises, reading the candidates of
    [get_completions] raises the same exception, right after the call. *)
Theorem completion_failure_propagates :
  forall (D : Type) (daemon : Daemon D)
         (path_completions : string -> list Completion)
         (command : string) (rest : list string) (buffer : string)
         (d d' : D) (e : exn),
    In command [ "start-verification"; "accept-verification";
                 "confirm-verification"; "cancel-verification";
                 "verify-device"; "unverify-device" ] ->
    Py.split_char " " buffer = command :: rest ->
    match rest with
    | [w1] =>
        ctl_list_users daemon d = (inl e, d') ->
        get_completions daemon path_completions buffer d
        = (([Call ListUsers], Raises e), d')
    | [pan_user; w2] =>
        devices_list daemon pan_user d = (inl e, d') ->
        get_completions daemon path_completions buffer d
        = (([Call (DevicesList pan_user)], Raises e), d')
    | [pan_user; uid; w3] =>
        devices_list_user_devices daemon (VStr pan_user) (VStr uid) d
        = (inl e, d') ->
        get_completions daemon path_completions buffer d
        = (([Call (ListUserDevices (VStr pan_user) (VStr uid))], Raises e), d')
    | _ => True
    end.
Proof.
  intros D daemon path_completions command rest buffer d d' e Hin Hsplit.
  pose proof (get_completions_verification daemon path_completions command
                rest buffer d Hin Hsplit) as Hc.
  destruct rest as [|a [|b [|c [|x tl]]]]; try exact I;
    intros Hfail; rewrite Hc.
  - unfold complete_pan_users, mbind, call. now rewrite Hfail.
  - unfold complete_users, mbind, call. now rewrite Hfail.
  - unfold complete_devices, mbind, call. now rewrite Hfail.
Qed.

Lemma completion_failure_witness :
  get_completions failing_daemon (fun _ => []) "verify-device @al" tt
  = (([Call ListUsers], Raises DBusException), tt).
Proof.
  apply (completion_failure_propagates unit failing_daemon (fun _ => [])
           "verify-device" ["@al"] "verify-device @al" tt tt DBusException).
  - simpl. tauto.
  - reflexivity.
  - reflexivity.
Defined.

Lemma app_string_assoc (a b c : string) :
  (a +:+ b) +:+ c = a +:+ (b +:+ c).
Proof.
  induction a as [|x a IH]; [reflexivity|].
  change (String x ((a +:+ b) +:+ c) = String x (a +:+ (b +:+ c))).
  now rewrite IH.
Qed.

Lemma contains_extension (w pre lw post : string) :
  Py.contains w (pre +:+ lw +:+ post) = true -> Py.contains w lw = true.
Proof.
  rewrite !contains_spec. intros (a & b & ->).
  exists (a +:+ pre), (post +:+ b).
  now rewrite !app_string_assoc.
Qed.

Lemma contains_empty (w : string) : Py.contains w "" = true.
Proof. apply contains_spec. now exists "", w. Qed.

(** X15.  Candidates only narrow while the word under the cursor grows:
    a word that still matches after characters were added before or after
    the target matched the shorter target too, and filtering the earlier
    candidates again gives the same list as filtering all words.  With
    nothing typed every word is a candidate, so the empty buffer offers all
    nine commands, each with span 0. *)
Theorem filter_words_narrows :
  (forall words pre last_word post w,
      In w (filter_words words (pre +:+ last_word +:+ post)) ->
      In w (filter_words words last_word))
  /\ (forall words pre last_word post,
         filter_words (filter_words words last_word)
                      (pre +:+ last_word +:+ post)
         = filter_words words (pre +:+ last_word +:+ post))
  /\ (forall words, filter_words words "" = words)
  /\ (forall (D : Type) (daemon : Daemon D)
             (path_completions : string -> list Completion) (d : D),
         get_completions daemon path_completions "" d
         = (([], Returns (map (fun w => {| text := w; start_position := 0 |})
                              commands)), d)).
Proof.
  split; [|split; [|split]].
  - intros words pre last_word post w. unfold filter_words.
    rewrite !filter_In. intros [Hw Hc]. split; [exact Hw|].
    now apply contains_extension in Hc.
  - intros words pre last_word post. unfold filter_words.
    induction words as [|w words IH]; [reflexivity|]. simpl.
    destruct (Py.contains w last_word) eqn:Hlw; simpl.
    + now rewrite IH.
    + destruct (Py.contains w (pre +:+ last_word +:+ post)) eqn:Hext;
        [|exact IH].
      apply contains_extension in Hext. congruence.
  - intros words. unfold filter_words.
    induction words as [|w words IH]; [reflexivity|]. simpl.
    now rewrite contains_empty, IH.
  - reflexivity.
Qed.

(** X16.  The hash of [get_color] is a 32-bit hash although it is computed
    on unbounded integers and masked only once at the end: it stays below
    2^32, and the hash of a string extended by one character is obtained
    from the masked hash of the string, as 33 times it plus the character,
    wrapped to 32 bits. *)
Theorem djb2_wraps_at_32_bits :
  (forall s, 0 <= djb2 s < 2 ^ 32)
  /\ (forall codes x,
         djb2_codes (codes ++ [x])
         = (33 * djb2_codes codes + x) mod 2 ^ 32)
  /\ (forall codes x,
         get_color_codes (codes ++ [x])
         = Py.getitem colors (((33 * djb2_codes codes + x) mod 2 ^ 32) mod 5)).
Proof.
  assert (Hstep : forall codes x,
             djb2_codes (codes ++ [x])
             = (33 * djb2_codes codes + x) mod 2 ^ 32).
  { intros codes x. rewrite !djb2_codes_times_33, fold_left_app.
    cbn [fold_left].
    rewrite <- (Zplus_mod_idemp_l (33 * (_ mod _))).
    rewrite Zmult_mod_idemp_r, Zplus_mod_idemp_l. reflexivity. }
  split; [|split; [exact Hstep|]].
  - intros s. unfold djb2. rewrite djb2_codes_times_33.
    apply Z.mod_pos_bound. lia.
  - intros codes x. unfold get_color_codes. now rewrite Hstep.
Qed.

(** ** [grouper] for any group size *)

Section grouper_any_size.
Context {A : Type} (fill : A).

Lemma zl_round_app (t1 t2 : list slot) :
  forall (store : list (list A)) (na : Z) (seen : list slot)
         (values : list A),
    zl_round fill (t1 ++ t2) store na seen values
    = match zl_round fill t1 store na seen values with
      | Some (values', seen', store', na') =>
          zl_round fill t2 store' na' seen' values'
      | None => None
      end.
Proof.
  induction t1 as [|s t1 IH]; intros store na seen values; [reflexivity|].
  destruct s as [i|]; cbn [zl_round app].
  - destruct (store !! i) as [[|x rest]|]; try apply IH;
      destruct (na - 1 =? 0); try reflexivity; apply IH.
  - apply IH.
Qed.

(** While the iterator has elements left, each reference reads one. *)
Lemma zl_round_reads (m : nat) :
  forall (l : list A) (na : Z) (seen : list slot) (values : list A),
    (m <= length l)%nat ->
    zl_round fill (replicate m (Live 0)) [l] na seen values
    = Some (values ++ take m l, seen ++ replicate m (Live 0),
            [drop m l], na).
Proof.
  induction m as [|m IH]; intros l na seen values Hm.
  - cbn. now rewrite !app_nil_r, drop_0.
  - destruct l as [|x l]; [simpl in Hm; lia|].
    cbn [replicate zl_round].
    change ([x :: l] !! 0%nat) with (Some (x :: l)). cbv iota.
    change (<[0%nat := l]> [x :: l]) with [l].
    rewrite IH by (simpl in Hm; lia).
    cbn [take drop replicate].
    now rewrite <- !app_assoc.
Qed.

(** Once it is exhausted, each reference retires and gives the fill
    value, as long as another one is still active. *)
Lemma zl_round_retires (m : nat) :
  forall (na : Z) (seen : list slot) (values : list A),
    Z.of_nat m < na ->
    zl_round fill (replicate m (Live 0)) [[]] na seen values
    = Some (values ++ replicate m fill, seen ++ replicate m Filler,
            [[]], na - Z.of_nat m).
Proof.
  induction m as [|m IH]; intros na seen values Hna.
  - cbn. rewrite !app_nil_r. do 2 f_equal. lia.
  - cbn [replicate zl_round].
    change (([[]] : list (list A)) !! 0%nat) with (Some ([] : list A)).
    cbv iota.
    destruct (Z.eqb_spec (na - 1) 0) as [E|_]; [lia|].
    rewrite IH by lia. rewrite <- !app_assoc. cbn [app].
    do 2 f_equal. lia.
Qed.

(** The round in which the last active reference retires yields
    nothing. *)
Lemma zl_round_stops (m : nat) :
  forall (rest seen : list slot) (values : list A),
    zl_round fill (replicate (S m) (Live 0) ++ rest) [[]]
             (Z.of_nat (S m)) seen values
    = None.
Proof.
  induction m as [|m IH]; intros rest seen values.
  - reflexivity.
  - change (replicate (S (S m)) (Live 0) ++ rest)
      with (Live 0 :: (replicate (S m) (Live 0) ++ rest)).
    cbn [zl_round].
    change (([[]] : list (list A)) !! 0%nat) with (Some ([] : list A)).
    cbv iota.
    destruct (Z.eqb_spec (Z.of_nat (S (S m)) - 1) 0) as [E|_]; [lia|].
    replace (Z.of_nat (S (S m)) - 1) with (Z.of_nat (S m)) by lia.
    apply IH.
Qed.

Lemma zl_rounds_chunks (n : nat) (Hn : (0 < n)%nat) (k : nat) :
  forall (l : list A) (fuel : nat),
    (length l <= k)%nat -> (length l + 2 <= fuel)%nat ->
    let groups :=
      zl_rounds fuel fill (replicate n (Live 0)) [l] (Z.of_nat n) in
    concat groups
    = l ++ replicate ((n - length l mod n) mod n) fill
    /\ Forall (fun g => length g = n) groups.
Proof.
  induction k as [k IH] using lt_wf_ind.
  intros l fuel Hk Hfuel.
  destruct fuel as [|fuel]; [lia|].
  destruct n as [|n']; [lia|]. set (n := S n') in *.
  destruct (Nat.le_gt_cases n (length l)) as [Hfull|Hshort].
  - (* a full group *)
    cbn [zl_rounds]. rewrite (zl_round_reads n) by exact Hfull.
    cbn [app].
    assert (Hdrop : length (drop n l) = (length l - n)%nat)
      by apply length_drop.
    destruct (IH (length (drop n l)) ltac:(lia) (drop n l) fuel
                 ltac:(lia) ltac:(lia)) as [Hcat Hall].
    split.
    + cbn [concat]. rewrite Hcat, Hdrop, app_assoc, take_drop.
      replace (length l) with ((length l - n) + 1 * n)%nat at 2 by lia.
      now rewrite Nat.Div0.mod_add.
    + apply List.Forall_cons; [|exact Hall].
      rewrite length_take. lia.
  - destruct l as [|x l'] eqn:El.
    + (* nothing left *)
      cbn [zl_rounds]. subst n.
      rewrite <- (app_nil_r (replicate (S n') (Live 0))).
      rewrite zl_round_stops. cbn [concat length].
      rewrite Nat.Div0.mod_0_l, Nat.sub_0_r, Nat.Div0.mod_same.
      split; [reflexivity | apply List.Forall_nil].
    + (* a last, shorter group *)
      rewrite <- El in *.
      assert (Hj : (0 < length l)%nat) by (subst l; simpl; lia).
      clear El. remember (length l) as j eqn:Ej.
      destruct fuel as [|fuel]; [lia|].
      assert (Hrounds :
                zl_rounds (S (S fuel)) fill (replicate n (Live 0)) [l]
                          (Z.of_nat n)
                = [l ++ replicate (n - j) fill]).
      { cbn [zl_rounds].
        replace n with (j + (n - j))%nat at 1 by lia.
        rewrite replicate_add, zl_round_app.
        rewrite (zl_round_reads j) by lia.
        rewrite take_ge, drop_ge by lia.
        rewrite zl_round_retires by lia.
        cbn [app].
        replace (Z.of_nat n - Z.of_nat (n - j)) with (Z.of_nat j) by lia.
        destruct j as [|j']; [lia|].
        now rewrite zl_round_stops. }
      cbv zeta. rewrite Hrounds.
      cbn [concat]. rewrite app_nil_r.
      rewrite (Nat.mod_small j) by lia.
      rewrite Nat.mod_small by lia.
      split; [reflexivity|].
      apply List.Forall_cons; [|apply List.Forall_nil].
      rewrite length_app, length_replicate. lia.
Qed.

End grouper_any_size.

Lemma grouper_rounds {A : Type} (fill : A) (n : nat) (l : list A) :
  (0 < n)%nat ->
  concat (grouper l n fill)
  = l ++ replicate ((n - length l mod n) mod n) fill
  /\ Forall (fun g => length g = n) (grouper l n fill).
Proof.
  intros Hn.
  assert (Hg : grouper l n fill
               = zl_rounds (S (length l + n)) fill (replicate n (Live 0))
                           [l] (Z.of_nat n)).
  { unfold grouper, zip_longest. rewrite length_replicate.
    destruct (Z.eqb_spec (Z.of_nat n) 0) as [E|_]; [lia | reflexivity]. }
  rewrite Hg.
  apply (zl_rounds_chunks fill n Hn (length l) l (S (length l + n))
           (le_n _)).
  lia.
Qed.

(** X17.  [grouper] loses and reorders nothing, whatever the group size:
    for [n >= 1] the groups, put end to end, are the input followed by
    just enough fill values to complete the last group, and every group
    has exactly [n] elements.  An empty input gives no group. *)
Theorem grouper_concat {A : Type} (fill : A) (n : nat) (l : list A) :
  (0 < n)%nat ->
  concat (grouper l n fill)
  = l ++ replicate ((n - length l mod n) mod n) fill
  /\ Forall (fun g => length g = n) (grouper l n fill)
  /\ (length (grouper l n fill) * n
      = length l + (n - length l mod n) mod n)%nat
  /\ (l = [] -> grouper l n fill = []).
Proof.
  intros Hn.
  destruct (grouper_rounds fill n l Hn) as [Hcat Hall].
  split; [exact Hcat|]. split; [exact Hall|].
  assert (Hlen : (length (grouper l n fill) * n
                  = length l + (n - length l mod n) mod n)%nat).
  { rewrite <- (length_replicate ((n - length l mod n) mod n) fill).
    rewrite <- length_app, <- Hcat.
    clear Hcat. induction Hall as [|g gs Hg _ IH]; [reflexivity|].
    cbn [concat length]. rewrite length_app, <- IH, Hg. lia. }
  split; [exact Hlen|].
  intros ->. simpl in Hlen.
  rewrite Nat.Div0.mod_0_l, Nat.sub_0_r, Nat.Div0.mod_same in Hlen.
  destruct (grouper [] n fill); [reflexivity | simpl in Hlen; lia].
Qed.

Lemma grouper_concat_witness :
  concat (grouper [1; 2; 3; 4; 5] 3%nat 0) = [1; 2; 3; 4; 5; 0]
  /\ grouper [1; 2; 3; 4; 5] 3%nat 0 = [[1; 2; 3]; [4; 5; 0]].
Proof.
  split; [|reflexivity].
  apply (grouper_concat 0 3%nat [1; 2; 3; 4; 5]). lia.
Defined.

Lemma list_ascii_of_app_string (s t : string) :
  list_ascii_of_string (s +:+ t)
  = list_ascii_of_string s ++ list_ascii_of_string t.
Proof.
  induction s as [|c s IH]; [reflexivity|].
  change (c :: list_ascii_of_string (s +:+ t)
          = c :: (list_ascii_of_string s ++ list_ascii_of_string t)).
  now rewrite IH.
Qed.

Lemma filter_not_space_join (pieces : list string) :
  List.filter not_space (list_ascii_of_string (Py.join " " pieces))
  = List.filter not_space (concat (map list_ascii_of_string pieces)).
Proof.
  induction pieces as [|x pieces IH]; [reflexivity|].
  destruct pieces as [|y pieces].
  - change (Py.join " " [x]) with x.
    change (concat (map list_ascii_of_string [x]))
      with (list_ascii_of_string x ++ []).
    now rewrite app_nil_r.
  - change (Py.join " " (x :: y :: pieces))
      with (x +:+ " " +:+ Py.join " " (y :: pieces)).
    rewrite !list_ascii_of_app_string, !List.filter_app, IH.
    change (concat (map list_ascii_of_string (x :: y :: pieces)))
      with (list_ascii_of_string x
              ++ concat (map list_ascii_of_string (y :: pieces))).
    now rewrite List.filter_app.
Qed.

Lemma filter_not_space_key (key : string) :
  Py.has_char " " key = false ->
  List.filter not_space (list_ascii_of_string key)
  = list_ascii_of_string key.
Proof.
  induction key as [|c key IH]; [reflexivity|].
  change (Py.has_char " " (String c key))
    with (Ascii.eqb " " c || Py.has_char " " key).
  change (list_ascii_of_string (String c key))
    with (c :: list_ascii_of_string key).
  cbn [List.filter]. unfold not_space at 1.
  rewrite (Ascii.eqb_sym c " ").
  destruct (Ascii.eqb " " c); [discriminate|].
  intros H. cbn [negb]. now rewrite IH.
Qed.

Lemma filter_not_space_padding (n : nat) :
  List.filter not_space (replicate n " "%char) = [].
Proof. induction n as [|n IH]; [reflexivity | exact IH]. Qed.

(** X18.  The grouping of a fingerprint key is only presentation: for a
    key without spaces, taking the spaces out of [partition_key key] gives
    the key back, so two such keys are displayed alike only if they are
    equal. *)
Theorem partition_key_keeps_the_key (key : string) :
  Py.has_char " " key = false ->
  string_of_list_ascii
    (List.filter not_space (list_ascii_of_string (partition_key key)))
  = key
  /\ (forall key',
         Py.has_char " " key' = false ->
         partition_key key = partition_key key' -> key = key').
Proof.
  assert (Hback : forall k,
             Py.has_char " " k = false ->
             string_of_list_ascii
               (List.filter not_space
                            (list_ascii_of_string (partition_key k)))
             = k).
  { intros k Hk. unfold partition_key.
    rewrite filter_not_space_join, map_map.
    rewrite (map_ext _ (fun g => g))
      by (intros g; apply list_ascii_of_string_of_list_ascii).
    rewrite map_id.
    destruct (grouper_rounds " "%char 4 (list_ascii_of_string k)
                ltac:(lia)) as [-> _].
    rewrite List.filter_app, filter_not_space_padding, app_nil_r.
    rewrite filter_not_space_key by exact Hk.
    apply string_of_list_ascii_of_string. }
  intros Hkey. split; [now apply Hback|].
  intros key' Hkey' Heq.
  rewrite <- (Hback key Hkey), <- (Hback key' Hkey'). now rewrite Heq.
Qed.

Lemma partition_key_keeps_the_key_witness :
  string_of_list_ascii
    (List.filter not_space
                 (list_ascii_of_string (partition_key "abcdefg")))
  = "abcdefg".
Proof.
  exact (proj1 (partition_key_keeps_the_key "abcdefg" eq_refl)).
Defined.

(** ** The short authentication string *)

Lemma land_1_odd (a b : Z) :
  Z.land (Z.land a b) 1 = Z.b2z (Z.odd a && Z.odd b).
Proof.
  change 1 with (Z.ones 1) at 1. rewrite Z.land_ones by lia.
  change (2 ^ 1) with 2.
  rewrite <- Z.bit0_mod, Z.land_spec, !Z.bit0_odd. reflexivity.
Qed.

Lemma half_odd (a : Z) : a = 2 * (a / 2) + Z.b2z (Z.odd a).
Proof.
  rewrite <- Z.bit0_odd, Z.bit0_mod. apply Z.div_mod. lia.
Qed.

(** X19.  [str.center] as [show_sas] uses it never cuts a text: the
    result is the text between two runs of spaces that together fill the
    width, a text as wide as the field or wider is left as it is, and the
    two runs differ by at most one space, which goes in front when the
    width is odd and behind when it is even. *)
Theorem center_never_cuts (s : list Z) (width : Z) :
  exists left right : nat,
    Sas.center s width
    = replicate left Sas.space ++ s ++ replicate right Sas.space
    /\ Z.of_nat (left + right) = Z.max 0 (width - Z.of_nat (length s))
    /\ Z.of_nat (length (Sas.center s width))
       = Z.max width (Z.of_nat (length s))
    /\ (Z.odd width = true -> (right <= left <= right + 1)%nat)
    /\ (Z.odd width = false -> (left <= right <= left + 1)%nat).
Proof.
  unfold Sas.center.
  destruct (Z.leb_spec width (Z.of_nat (length s))) as [Hle|Hlt].
  - exists 0%nat, 0%nat. cbn [replicate app]. rewrite app_nil_r.
    repeat split; lia.
  - set (marg := width - Z.of_nat (length s)).
    rewrite land_1_odd.
    pose proof (half_odd marg) as Hm.
    assert (Hhalf : 0 <= marg / 2) by (apply Z.div_pos; lia).
    set (left := marg / 2 + Z.b2z (Z.odd marg && Z.odd width)).
    assert (Hleft : 0 <= left <= marg).
    { subst left. destruct (Z.odd marg), (Z.odd width); simpl in *; lia. }
    exists (Z.to_nat left), (Z.to_nat (marg - left)).
    split; [reflexivity|].
    split; [lia|].
    split; [rewrite !length_app, !length_replicate; lia|].
    subst left.
    split; intros Hw; rewrite Hw in *;
      destruct (Z.odd marg); simpl in *; lia.
Qed.

Lemma replace_from_spaces (new rest : list Z) (n : nat) :
  Sas.replace_from 0 [46; 46] new (replicate n Sas.space ++ rest)
  = replicate n Sas.space ++ Sas.replace_from 0 [46; 46] new rest.
Proof.
  change Sas.space with 32.
  induction n as [|n IH]; [reflexivity|].
  cbn [replicate app Sas.replace_from Sas.is_prefix].
  change (46 =? 32) with false. cbn [andb].
  now rewrite IH.
Qed.

Lemma replace_placeholder (new : list Z) (left right : nat) :
  Sas.replace (replicate left Sas.space ++ [46; 46]
                 ++ replicate right Sas.space) [46; 46] new
  = replicate left Sas.space ++ new ++ replicate right Sas.space.
Proof.
  unfold Sas.replace. rewrite replace_from_spaces. f_equal.
  change (Sas.replace_from 0 [46; 46] new
            ([46; 46] ++ replicate right Sas.space))
    with (new ++ Sas.replace_from 0 [46; 46] new
                   (replicate right Sas.space)).
  f_equal.
  rewrite <- (app_nil_r (replicate right Sas.space)) at 1.
  rewrite replace_from_spaces. cbn [Sas.replace_from]. apply app_nil_r.
Qed.

Lemma center_emoji_at_12 (emoji : list Z) :
  Sas.center_emoji emoji Sas.centered_width
  = replicate 5 Sas.space
      ++ (if bool_decide (emoji ∈ Sas.variation_selector_emojis)
          then emoji ++ [Sas.space] else emoji)
      ++ replicate 5 Sas.space.
Proof.
  unfold Sas.center_emoji.
  change (Sas.center (replicate 2 46) Sas.centered_width)
    with (replicate 5 Sas.space ++ [46; 46] ++ replicate 5 Sas.space).
  change (replicate 2 46) with [46; 46].
  apply replace_placeholder.
Qed.

(** X20.  [center_emoji] puts the glyph itself, whatever it is, in place
    of the two-column placeholder: the result is the glyph between two
    runs of spaces that fill the width less two columns, and the glyph is
    followed by one more space exactly when it is one of the seven glyphs
    with a variation selector.  The glyph is never searched for the
    placeholder, so a glyph made of dots stays as it is.  A width below
    two gives the glyph alone. *)
Theorem center_emoji_keeps_the_glyph (emoji : list Z) (width : Z) :
  let glyph :=
    if bool_decide (emoji ∈ Sas.variation_selector_emojis)
    then emoji ++ [Sas.space] else emoji in
  exists left right : nat,
    Sas.center_emoji emoji width
    = replicate left Sas.space ++ glyph ++ replicate right Sas.space
    /\ Z.of_nat (left + right) = Z.max 0 (width - 2)
    /\ (left <= right + 1)%nat /\ (right <= left + 1)%nat
    /\ (width = Sas.centered_width -> left = 5%nat /\ right = 5%nat).
Proof.
  intros glyph. unfold Sas.center_emoji. fold glyph.
  change (replicate 2 46) with [46; 46].
  unfold Sas.center. change (Z.of_nat (length [46; 46])) with 2.
  destruct (Z.leb_spec width 2) as [Hle|Hlt].
  - exists 0%nat, 0%nat.
    rewrite <- (replace_placeholder glyph 0 0).
    repeat split; try reflexivity; try lia;
      unfold Sas.centered_width in *; lia.
  - rewrite land_1_odd.
    pose proof (half_odd (width - 2)) as Hm.
    assert (Hhalf : 0 <= (width - 2) / 2) by (apply Z.div_pos; lia).
    set (left := (width - 2) / 2 + Z.b2z (Z.odd (width - 2) && Z.odd width)).
    assert (Hleft : 0 <= left <= width - 2
                    /\ left - 1 <= width - 2 - left <= left + 1).
    { subst left.
      destruct (Z.odd (width - 2)), (Z.odd width); simpl in *; lia. }
    exists (Z.to_nat left), (Z.to_nat (width - 2 - left)).
    rewrite replace_placeholder.
    split; [reflexivity|].
    split; [lia|]. split; [lia|]. split; [lia|].
    intros ->. subst left. split; reflexivity.
Qed.

Lemma center_length_in_field (s : list Z) (width : Z) :
  Z.of_nat (length s) <= width ->
  Z.of_nat (length (Sas.center s width)) = width.
Proof.
  intros Hs. unfold Sas.center.
  destruct (Z.leb_spec width (Z.of_nat (length s))) as [Hle|Hlt]; [lia|].
  rewrite land_1_odd.
  pose proof (half_odd (width - Z.of_nat (length s))) as Hm.
  assert (Hhalf : 0 <= (width - Z.of_nat (length s)) / 2)
    by (apply Z.div_pos; lia).
  rewrite !length_app, !length_replicate.
  destruct (Z.odd (width - Z.of_nat (length s))), (Z.odd width);
    simpl in *; lia.
Qed.

(** X21.  The two rows of the short authentication string line up: the
    text printed ends with the row of glyphs, a newline and the row of
    descriptions; each glyph stands between five spaces on either side,
    and when no description is wider than twelve characters each one
    fills exactly twelve columns, so that the description row has twelve
    columns for every glyph. *)
Theorem show_sas_rows_line_up
    (pan_user user_id device_id : list Z) (emoji : list (list Z * list Z)) :
  Forall (fun e => (length (snd e) <= 12)%nat) emoji ->
  exists header desc,
    Sas.show_sas pan_user user_id device_id emoji
    = header
        ++ concat (map (fun e =>
                          replicate 5 Sas.space
                            ++ (if bool_decide
                                     (fst e ∈ Sas.variation_selector_emojis)
                                then fst e ++ [Sas.space] else fst e)
                            ++ replicate 5 Sas.space) emoji)
        ++ [10] ++ desc
    /\ length desc = (12 * length emoji)%nat
    /\ desc = concat (map (fun e => Sas.center (snd e) 12) emoji).
Proof.
  intros Hwide.
  exists (Sas.codes "Short authentication string for pan user " ++ pan_user
            ++ Sas.codes " from " ++ user_id ++ Sas.codes " via " ++ device_id
            ++ Sas.codes ":" ++ [10]),
         (concat (map (fun e => Sas.center (snd e) 12) emoji)).
  split; [|split; [|reflexivity]].
  - unfold Sas.show_sas, Sas.short_string.
    rewrite <- !app_assoc. repeat f_equal.
    + rewrite map_map. apply map_ext. intros e.
      apply center_emoji_at_12.
    + now rewrite map_map.
  - induction Hwide as [|e emoji He _ IH]; [reflexivity|].
    cbn [map concat]. rewrite length_app, IH. cbn [length].
    pose proof (center_length_in_field (snd e) 12 ltac:(lia)). lia.
Qed.

Lemma show_sas_rows_witness :
  exists header desc,
    Sas.show_sas [64; 97] [64; 98] [68]
                 [([0x2601; 0xFE0F], Sas.codes "Cloud");
                  ([0x1F436], Sas.codes "Dog")]
    = header
        ++ concat (map (fun e =>
                          replicate 5 Sas.space
                            ++ (if bool_decide
                                     (fst e ∈ Sas.variation_selector_emojis)
                                then fst e ++ [Sas.space] else fst e)
                            ++ replicate 5 Sas.space)
                       [([0x2601; 0xFE0F], Sas.codes "Cloud");
                        ([0x1F436], Sas.codes "Dog")])
        ++ [10] ++ desc
    /\ length desc = 24%nat
    /\ desc = concat (map (fun e => Sas.center (snd e) 12)
                          [([0x2601; 0xFE0F], Sas.codes "Cloud");
                           ([0x1F436], Sas.codes "Dog")]).
Proof.
  apply (show_sas_rows_line_up [64; 97] [64; 98] [68]
           [([0x2601; 0xFE0F], Sas.codes "Cloud");
            ([0x1F436], Sas.codes "Dog")]).
  repeat apply List.Forall_cons; try apply List.Forall_nil; simpl; lia.
Defined.

(** ** What every completion has in common *)

Lemma getitem_last_cons {X} (x y : X) (l : list X) :
  Py.getitem (x :: y :: l) (-1) = Py.getitem (y :: l) (-1).
Proof.
  unfold Py.getitem.
  change (0 <=? -1) with false. cbn [andb].
  change (-1 <? 0) with true. rewrite !andb_true_r.
  destruct (Z.leb_spec (- Z.of_nat (length (x :: y :: l))) (-1)) as [_|H];
    [|simpl length in H; lia].
  destruct (Z.leb_spec (- Z.of_nat (length (y :: l))) (-1)) as [_|H];
    [|simpl length in H; lia].
  replace (Z.to_nat (Z.of_nat (length (x :: y :: l)) + -1))
    with (S (length l)) by (simpl length; lia).
  replace (Z.to_nat (Z.of_nat (length (y :: l)) + -1))
    with (length l) by (simpl length; lia).
  reflexivity.
Qed.

(** The last word of a buffer is what follows its last space. *)
Lemma split_char_last (s : string) :
  exists pre last_word,
    s = pre +:+ last_word
    /\ Py.has_char " " last_word = false
    /\ Py.getitem (Py.split_char " " s) (-1) = Some last_word.
Proof.
  induction s as [|c s (pre & lw & Hs & Hlw & Hget)].
  - now exists "", "".
  - cbn [Py.split_char].
    destruct (Ascii.eqb c " ") eqn:Ec.
    + exists (String c pre), lw. split; [now rewrite Hs|]. split; [exact Hlw|].
      destruct (Py.split_char " " s) as [|w ws] eqn:E;
        [now destruct (split_char_nonempty " " s)|].
      now rewrite getitem_last_cons.
    + destruct (Py.split_char " " s) as [|w [|w' ws]] eqn:E;
        [now destruct (split_char_nonempty " " s)| |].
      * exists "", (String c lw).
        assert (Hw : w = lw) by (cbv in Hget; congruence). subst w.
        pose proof (split_char_single " " s) as E'.
        rewrite E in E'. specialize (E' eq_refl).
        assert (pre = "").
        { inversion E' as [Hlws].
          rewrite Hs in Hlws at 1. clear - Hlws.
          destruct pre as [|a pre]; [reflexivity|].
          apply (f_equal String.length) in Hlws.
          rewrite length_app_string in Hlws. simpl in Hlws. lia. }
        subst pre. split; [now rewrite Hs|]. split; [|reflexivity].
        cbn [Py.has_char]. rewrite Ascii.eqb_sym, Ec. exact Hlw.
      * exists (String c pre), lw. split; [now rewrite Hs|].
        split; [exact Hlw|].
        rewrite getitem_last_cons in Hget.
        now rewrite getitem_last_cons.
Qed.

Lemma word_in_range {D} (words : list string) (i : Z) :
  0 <= i < Z.of_nat (length words) ->
  exists w, @word D words i = mret w.
Proof.
  intros Hi.
  destruct (lookup_lt_is_Some_2 words (Z.to_nat i) ltac:(lia)) as [w Hw].
  exists w. apply word_some. unfold Py.getitem.
  destruct (Z.leb_spec 0 i) as [_|H]; [|lia].
  destruct (Z.ltb_spec i (Z.of_nat (length words))) as [_|H]; [|lia].
  exact Hw.
Qed.

Section one_query_facts.
Context {D : Type} (daemon : Daemon D).
Variable path_completions : string -> list Completion.

#[local] Abbreviation offered last_word :=
  (one_query (Forall (candidate_for path_completions last_word))).

Lemma candidates_of_filter (words : list string) (last_word : string) :
  Forall (candidate_for path_completions last_word)
         (completions (filter_words words last_word) last_word).
Proof.
  apply List.Forall_forall. intros c Hc. right.
  unfold completions in Hc. apply in_map_iff in Hc as (w & <- & Hw).
  unfold filter_words in Hw. apply filter_In in Hw as [_ Hw].
  split; [reflexivity | exact Hw].
Qed.

Lemma offered_nothing (last_word : string) (d : D) :
  offered last_word (@mret D _ [] d).
Proof. split; [now left | apply List.Forall_nil]. Qed.

Lemma offered_commands (last_word : string) (d : D) :
  offered last_word (complete_commands last_word d).
Proof. split; [now left | apply candidates_of_filter]. Qed.

Lemma offered_pan_users (last_word : string) (d : D) :
  offered last_word (complete_pan_users daemon last_word d).
Proof.
  unfold complete_pan_users, mbind, call.
  destruct (ctl_list_users daemon d) as [[e|users] d']; cbn.
  - now eexists.
  - split; [right; now eexists | apply candidates_of_filter].
Qed.

Lemma offered_users (last_word pan_user : string) (d : D) :
  offered last_word (complete_users daemon last_word pan_user d).
Proof.
  unfold complete_users, mbind, call.
  destruct (devices_list daemon pan_user d) as [[e|devices] d']; cbn.
  - now eexists.
  - split; [right; now eexists | apply candidates_of_filter].
Qed.

Lemma offered_devices (last_word pan_user user_id : string) (d : D) :
  offered last_word (complete_devices daemon last_word pan_user user_id d).
Proof.
  unfold complete_devices, mbind, call.
  destruct (devices_list_user_devices daemon (VStr pan_user) (VStr user_id) d)
    as [[e|devices] d']; cbn.
  - now eexists.
  - split; [right; now eexists | apply candidates_of_filter].
Qed.

Lemma offered_verification (command last_word : string)
    (words : list string) (d : D) :
  offered last_word (complete_verification daemon command last_word words d).
Proof.
  unfold complete_verification.
  destruct (Nat.eqb_spec (length words) 2) as [E2|_];
    [apply offered_pan_users|].
  destruct (Nat.eqb_spec (length words) 3) as [E3|_].
  { destruct (@word_in_range D words 1 ltac:(lia)) as [w ->].
    rewrite mbind_mret_l. apply offered_users. }
  destruct (Nat.eqb_spec (length words) 4) as [E4|_];
    [|apply offered_nothing].
  destruct (@word_in_range D words 1 ltac:(lia)) as [w1 ->].
  rewrite mbind_mret_l.
  destruct (@word_in_range D words 2 ltac:(lia)) as [w2 ->].
  rewrite mbind_mret_l. apply offered_devices.
Qed.

Lemma offered_key_file_cmds (command last_word : string)
    (words : list string) (d : D) :
  offered last_word
          (complete_key_file_cmds daemon path_completions command last_word
                                  words d).
Proof.
  unfold complete_key_file_cmds.
  destruct (Nat.eqb (length words) 2); [apply offered_pan_users|].
  destruct (Nat.eqb (length words) 3); [|apply offered_nothing].
  split; [now left|]. apply List.Forall_forall. intros c Hc. now left.
Qed.

Lemma offered_list_devices (last_word : string) (words : list string)
    (d : D) :
  offered last_word (complete_list_devices daemon last_word words d).
Proof.
  unfold complete_list_devices.
  destruct (Nat.eqb_spec (length words) 2) as [E2|_];
    [apply offered_pan_users|].
  destruct (Nat.eqb_spec (length words) 3) as [E3|_];
    [|apply offered_nothing].
  destruct (@word_in_range D words 1 ltac:(lia)) as [w ->].
  rewrite mbind_mret_l. apply offered_users.
Qed.

End one_query_facts.


(** ** The help flag of a command *)

Lemma subparser_help (verb : string) (arguments : list string)
    (flag : string) (rest : list string) :
  In flag ["-h"; "--help"] ->
  subparser_parse_known_args verb arguments (flag :: rest)
  = ([Write Stdout (HelpText (Some verb))], Raises (SystemExit 0)).
Proof.
  intros Hflag.
  destruct (classify_total rest) as (pat & Hpat & _).
  unfold subparser_parse_known_args, Argparse.parse_known_args.
  destruct Hflag as [<- | [<- | []]].
  - change (Argparse.classify ("-h" :: rest))
      with (cs <- Argparse.classify rest ;;
            ret (Argparse.PO (Some Argparse.Help, "-h", None) :: cs))%W.
    rewrite Hpat, bind_ret_l. reflexivity.
  - change (Argparse.classify ("--help" :: rest))
      with (cs <- Argparse.classify rest ;;
            ret (Argparse.PO (Some Argparse.Help, "--help", None) :: cs))%W.
    rewrite Hpat, bind_ret_l. reflexivity.
Qed.

(** X22.  The help flag right after a registered command, whatever
    follows it, prints that command's help and leaves the program: the
    parser raises [SystemExit(0)], which the loop does not catch, so the
    loop ends there without a remote call and [main] ends with exit
    status 0. *)
Theorem help_after_a_command_ends_the_loop :
  forall (D : Type) (daemon : Daemon D) (d : D) (result verb flag : string)
         (arguments rest : list string) (inputs : list prompt_result),
    name_parser_map !! verb = Some arguments ->
    In flag ["-h"; "--help"] ->
    Py.split_ws result = verb :: flag :: rest ->
    parse_args (verb :: flag :: rest)
    = ([Write Stdout (HelpText (Some verb))], Raises (SystemExit 0))
    /\ loop daemon (Line result :: inputs) d
       = (([ShowPrompt; Write Stdout (HelpText (Some verb))],
           Raises (SystemExit 0)), d)
    /\ main daemon (inr d) (Line result :: inputs)
       = ([ShowPrompt; Write Stdout (HelpText (Some verb))],
          Raises (SystemExit 0)).
Proof.
  intros D daemon d result verb flag arguments rest inputs Hlook Hflag Hsplit.
  assert (Hverb : is_positional_word verb = true).
  { pose proof (name_parser_map_lookup verb arguments Hlook) as Hin.
    simpl in Hin.
    repeat (destruct Hin as [Hin | Hin];
            [inversion Hin; subst; reflexivity|]).
    destruct Hin. }
  assert (Hparse : parse_args (verb :: flag :: rest)
                   = ([Write Stdout (HelpText (Some verb))],
                      Raises (SystemExit 0))).
  { rewrite (parse_args_head verb (flag :: rest) Hverb).
    unfold take_subparsers. rewrite Hlook.
    now rewrite (subparser_help verb arguments flag rest Hflag). }
  assert (Hloop : loop daemon (Line result :: inputs) d
                  = (([ShowPrompt; Write Stdout (HelpText (Some verb))],
                      Raises (SystemExit 0)), d)).
  { apply loop_raises_in_line. unfold handle_line.
    destruct (String.eqb_spec result "") as [->|_]; [discriminate|].
    unfold parse_line. rewrite Hsplit, Hparse. reflexivity. }
  split; [exact Hparse|]. split; [exact Hloop|].
  unfold main. now rewrite Hloop.
Qed.

Lemma help_after_a_command_witness :
  loop sample_daemon [Line "list-devices --help @alice:example.org"] tt
  = (([ShowPrompt; Write Stdout (HelpText (Some "list-devices"))],
      Raises (SystemExit 0)), tt).
Proof.
  apply (help_after_a_command_ends_the_loop unit sample_daemon tt
           "list-devices --help @alice:example.org" "list-devices" "--help"
           ["pan_user"; "user_id"] ["@alice:example.org"] []).
  - reflexivity.
  - simpl. tauto.
  - reflexivity.
Defined.
